(** * Code-block decoration in the rich-text example

    A shallow embedding of [getContent] and [decorateNode] from
    [src/examples/rich-text/index.js], and the properties of the mapping from
    Prism tokens to Slate decoration ranges.

    JavaScript numbers are modelled by [Z]: every number the decoration code
    handles is a string length or a sum or difference of string lengths, so
    the arithmetic is exact.  Strings are sequences of code units. *)

From Stdlib Require Import String Ascii List ZArith Lia Bool.
Import ListNotations.

Open Scope string_scope.
Open Scope Z_scope.

(** ** The JavaScript primitives the code relies on *)

Module JS.

(** Exceptions raised by the runtime or by a collaborator. *)
Inductive exn : Type :=
| TypeError (msg : string)
| Error (msg : string).

(** Outcome of a call: a normal return or a thrown exception. *)
Inductive result (A : Type) : Type :=
| Ok (a : A)
| Throw (e : exn).
Arguments Ok {A} a.
Arguments Throw {A} e.

Definition bind {A B : Type} (r : result A) (k : A -> result B) : result B :=
  match r with
  | Ok a => k a
  | Throw e => Throw e
  end.

(** The line feed character, written ['\n'] in the source. *)
Definition LF : ascii := ascii_of_nat 10.
Definition nl : string := String LF EmptyString.

(** [s.length] *)
Definition strlen (s : string) : Z := Z.of_nat (String.length s).

(** [a.length] *)
Definition len {A : Type} (a : list A) : Z := Z.of_nat (List.length a).

(** [s.split(sep)] for a one-character separator: the pieces between the
    occurrences of [sep]; the empty string splits into one empty piece. *)
Fixpoint split (sep : ascii) (s : string) : list string :=
  match s with
  | EmptyString => [EmptyString]
  | String c s' =>
      if Ascii.eqb c sep then EmptyString :: split sep s'
      else match split sep s' with
           | [] => [String c EmptyString]
           | piece :: pieces => String c piece :: pieces
           end
  end.

(** [a.join(sep)] on an array of strings. *)
Fixpoint join (sep : string) (a : list string) : string :=
  match a with
  | [] => EmptyString
  | [x] => x
  | x :: rest => x ++ sep ++ join sep rest
  end.

(** [a.shift()]: the first element ([undefined] on an empty array) and the
    array as it is left. *)
Definition shift {A : Type} (a : list A) : option A * list A :=
  match a with
  | [] => (None, [])
  | x :: rest => (Some x, rest)
  end.

(** [o[k]] with a possibly undefined key: the key is converted to a
    property name. *)
Definition property_key (k : option string) : string :=
  match k with
  | Some s => s
  | None => "undefined"
  end.

End JS.

Import JS.

(** ** Data model *)

(** A Prism token: a plain string, or an object with a [type] and a
    [content] that is a string or an array of tokens. *)
Inductive token : Type :=
| TString (s : string)
| TToken (type : string) (content : tcontent)
with tcontent : Type :=
| CString (s : string)
| CArray (ts : list token).

(** A Slate text node, as far as the decoration code reads it. *)
Record Text : Type := mkText { key : string; text : string }.

Record Mark : Type := mkMark { mark_type : string }.

(** The range object literal pushed on [decorations]. *)
Record Range : Type := mkRange {
  anchorKey : string;
  anchorOffset : Z;
  focusKey : string;
  focusOffset : Z;
  marks : list Mark
}.

(** ** getContent *)

Fixpoint getContent (t : token) : string :=
  match t with
  | TString s => s
  | TToken _ (CString s) => s
  | TToken _ (CArray ts) => join "" (map getContent ts)
  end.

(** ** decorateNode: the loop over the tokens *)

(** [content.length - newlines], with [newlines] counted by splitting. *)
Definition token_length (content : string) : Z :=
  let newlines := len (split LF content) - 1 in
  strlen content - newlines.

(** The variables of the inner [while] loop that it reads or assigns. *)
Record wstate : Type := mkW {
  w_texts : list Text;
  w_endText : Text;
  w_available : Z;
  w_remaining : Z;
  w_endOffset : Z
}.

(** [available < remaining && texts.length > 0] *)
Definition while_cond (w : wstate) : bool :=
  (w_available w <? w_remaining w) && (0 <? len (w_texts w)).

(** One run of the loop body; [length] is the token's length.  The body is
    only entered with a non-empty [texts]. *)
Definition while_body (length : Z) (w : wstate) : wstate :=
  match w_texts w with
  | [] => w
  | t :: rest =>
      let remaining := length - w_available w in
      mkW rest t (strlen (text t)) remaining remaining
  end.

(** The loop with an explicit bound on the number of iterations. *)
Fixpoint while_fuel (fuel : nat) (length : Z) (w : wstate) : option wstate :=
  if while_cond w then
    match fuel with
    | O => None
    | S fuel' => while_fuel fuel' length (while_body length w)
    end
  else Some w.

(** The loop itself: every iteration shifts one element off [texts], so it
    is defined by recursion on [texts]. *)
Fixpoint advance (length : Z) (texts : list Text) (endText : Text)
    (available remaining endOffset : Z) {struct texts} : wstate :=
  if available <? remaining then
    match texts with
    | [] => mkW texts endText available remaining endOffset
    | t :: rest =>
        let remaining' := length - available in
        advance length rest t (strlen (text t)) remaining' remaining'
    end
  else mkW texts endText available remaining endOffset.

(** The variables of [decorateNode] that live across the [for] loop.
    [startText] and [endText] are [None] when [texts.shift()] returned
    [undefined]. *)
Record vars : Type := mkVars {
  v_texts : list Text;
  v_startText : option Text;
  v_endText : option Text;
  v_startOffset : Z;
  v_endOffset : Z;
  v_start : Z;
  v_decorations : list Range
}.

(** The body of [for (const token of tokens)]. *)
Definition for_body (tok : token) (v : vars) : result vars :=
  let startText := v_endText v in
  let startOffset := v_endOffset v in
  let content := getContent tok in
  let length := token_length content in
  let end_ := v_start v + length in
  match startText with
  | None => Throw (TypeError "Cannot read property 'text' of undefined")
  | Some st =>
      let available := strlen (text st) - startOffset in
      let remaining := length in
      let endOffset := startOffset + remaining in
      let w := advance length (v_texts v) st available remaining endOffset in
      let decorations :=
        match tok with
        | TString _ => v_decorations v
        | TToken type _ =>
            (v_decorations v ++
               [mkRange (key st) startOffset
                        (key (w_endText w)) (w_endOffset w)
                        [mkMark type]])%list
        end in
      Ok (mkVars (w_texts w) (Some st) (Some (w_endText w))
                 startOffset (w_endOffset w) end_ decorations)
  end.

Fixpoint for_of (tokens : list token) (v : vars) : result vars :=
  match tokens with
  | [] => Ok v
  | tok :: rest => bind (for_body tok v) (for_of rest)
  end.

(** The variables as they are initialised before the loop. *)
Definition init_vars (texts : list Text) : vars :=
  let '(startText, texts') := shift texts in
  mkVars texts' startText startText 0 0 0 [].

(** The part of [decorateNode] from [const decorations = []] on, with the
    final values of all variables. *)
Definition decorate_vars (texts : list Text) (tokens : list token)
    : result vars :=
  for_of tokens (init_vars texts).

Definition decorate (texts : list Text) (tokens : list token)
    : result (list Range) :=
  bind (decorate_vars texts tokens) (fun v => Ok (v_decorations v)).

(** ** decorateNode *)

(** A Slate node, as far as [decorateNode] reads it: [node.type],
    [node.data.get('language')] and [node.getTexts().toArray()]. *)
Record Node : Type := mkNode {
  node_type : string;
  node_language : option string;
  node_texts : list Text
}.

Section DecorateNode.

(** Prism is an external library: its grammar registry and its tokenizer
    are taken as given. *)
Variable grammar : Type.
Variable languages : string -> option grammar.
Variable tokenize : string -> option grammar -> result (list token).

(** [None] is the [undefined] the function returns for a node that is not
    a code block. *)
Definition decorateNode (node : Node) : result (option (list Range)) :=
  if negb (String.eqb (node_type node) "code") then Ok None
  else
    let language := node_language node in
    let texts := node_texts node in
    let string := join nl (map text texts) in
    let grammar := languages (property_key language) in
    bind (tokenize string grammar) (fun tokens =>
    bind (decorate texts tokens) (fun decorations =>
    Ok (Some decorations))).

End DecorateNode.

(** ** Vocabulary of the properties *)

(** The type tags of the structured tokens of a stream, in order. *)
Fixpoint structured_types (tokens : list token) : list string :=
  match tokens with
  | [] => []
  | TString _ :: rest => structured_types rest
  | TToken type _ :: rest => type :: structured_types rest
  end.

(** The mark lists of the ranges of a stream's structured tokens. *)
Definition type_marks (tokens : list token) : list (list Mark) :=
  map (fun type => [mkMark type]) (structured_types tokens).

(** The strings at the leaves of a token, from left to right. *)
Fixpoint leaves (t : token) : list string :=
  match t with
  | TString s => [s]
  | TToken _ (CString s) => [s]
  | TToken _ (CArray ts) => flat_map leaves ts
  end.

(** Concatenation with nothing in between. *)
Definition concat_strings (l : list string) : string :=
  fold_right append EmptyString l.

(** Number of occurrences of a character. *)
Fixpoint count_char (c : ascii) (s : string) : Z :=
  match s with
  | EmptyString => 0
  | String c' s' => (if Ascii.eqb c' c then 1 else 0) + count_char c s'
  end.

(** Total text length of a list of segments, separators not counted. *)
Definition sum_len (ts : list Text) : Z :=
  fold_right (fun t acc => strlen (text t) + acc) 0 ts.

(** Total length of a token stream as the loop counts it. *)
Definition tokens_length (tokens : list token) : Z :=
  fold_right (fun tok acc => token_length (getContent tok) + acc) 0 tokens.

(** The text the tokenizer is given. *)
Definition joined (texts : list Text) : string := join nl (map text texts).

(** Index of the segment with a given key. *)
Fixpoint key_index (texts : list Text) (k : string) : option nat :=
  match texts with
  | [] => None
  | t :: rest =>
      if String.eqb (key t) k then Some O
      else option_map S (key_index rest k)
  end.

(** A position in the segment list: segment index and offset in it. *)
Definition pos : Type := (nat * Z)%type.

(** Document order on positions. *)
Definition pos_le (p q : pos) : Prop :=
  (fst p < fst q)%nat \/ (fst p = fst q /\ snd p <= snd q).

Definition anchor_pos (texts : list Text) (r : Range) : option pos :=
  option_map (fun i => (i, anchorOffset r)) (key_index texts (anchorKey r)).

Definition focus_pos (texts : list Text) (r : Range) : option pos :=
  option_map (fun i => (i, focusOffset r)) (key_index texts (focusKey r)).

(** Both offsets of a range lie inside the text of their segment. *)
Definition in_bounds (texts : list Text) (r : Range) : bool :=
  match anchor_pos texts r, focus_pos texts r with
  | Some (i, a), Some (j, f) =>
      (0 <=? a) && (a <=? strlen (text (nth i texts (mkText "" ""))))
      && (0 <=? f) && (f <=? strlen (text (nth j texts (mkText "" ""))))
  | _, _ => false
  end.

(** The integers [lo], [lo+1], ..., [hi-1]. *)
Definition interval (lo hi : Z) : list Z :=
  map (fun k => lo + Z.of_nat k) (seq 0 (Z.to_nat (hi - lo))).

(** The characters a range covers, as (segment, offset) pairs: from the
    anchor offset to the end of the anchor segment, every segment in
    between, and the focus segment up to the focus offset. *)
Definition range_cells (texts : list Text) (r : Range) : list pos :=
  match anchor_pos texts r, focus_pos texts r with
  | Some (i, a), Some (j, f) =>
      flat_map
        (fun k =>
           let lo := if Nat.eqb k i then a else 0 in
           let hi := if Nat.eqb k j then f
                     else strlen (text (nth k texts (mkText "" ""))) in
           map (fun o => (k, o)) (interval lo hi))
        (seq i (S j - i))
  | _, _ => []
  end.

(** The (segment, offset) pair of position [p] of the joined text; [None]
    on a separator and past the end. *)
Fixpoint locate (texts : list Text) (i : nat) (p : Z) : option pos :=
  match texts with
  | [] => None
  | t :: rest =>
      if p <? strlen (text t) then Some (i, p)
      else if p =? strlen (text t) then None
      else locate rest (S i) (p - strlen (text t) - 1)
  end.

(** The spans [from, to) of the structured tokens in the joined text. *)
Fixpoint token_spans (p : Z) (tokens : list token) : list (Z * Z) :=
  match tokens with
  | [] => []
  | tok :: rest =>
      let q := p + strlen (getContent tok) in
      match tok with
      | TString _ => token_spans q rest
      | TToken _ _ => (p, q) :: token_spans q rest
      end
  end.

(** The characters of a span of the joined text, mapped back to
    (segment, offset) pairs. *)
Definition span_cells (texts : list Text) (span : Z * Z) : list pos :=
  flat_map (fun p => match locate texts 0 p with
                     | Some c => [c]
                     | None => []
                     end)
           (interval (fst span) (snd span)).

(** The token stream matches the segments: its flattened content is the
    joined text. *)
Definition matching (texts : list Text) (tokens : list token) : Prop :=
  concat_strings (map getContent tokens) = joined texts.

(** ** Invariant of the loop over the tokens *)

(** [i] is the index of a segment with key [k]. *)
Definition at_index (all : list Text) (i : nat) (k : string) : Prop :=
  exists t, nth_error all i = Some t /\ key t = k.

(** The end cursor of [v] sits on segment [cur], which follows [pre] in the
    full segment list [all] and precedes the segments still queued. *)
Record located (all : list Text) (v : vars) (pre : list Text) (cur : Text)
    : Prop := mkLocated {
  loc_split : all = (pre ++ cur :: v_texts v)%list;
  loc_end : v_endText v = Some cur;
  loc_low : 0 <= v_endOffset v;
  loc_high : v_endOffset v <= strlen (text cur) \/ v_texts v = [];
  loc_sum : v_start v <= sum_len pre + v_endOffset v
}.

(** Ranges that follow one another in document order between two cursor
    positions. *)
Inductive chain (all : list Text) : pos -> list Range -> pos -> Prop :=
| chain_nil p q : pos_le p q -> chain all p [] q
| chain_cons p i j r ds q :
    at_index all i (anchorKey r) ->
    at_index all j (focusKey r) ->
    pos_le p (i, anchorOffset r) ->
    pos_le (i, anchorOffset r) (j, focusOffset r) ->
    chain all (j, focusOffset r) ds q ->
    chain all p (r :: ds) q.

(** The ranges a token contributes, given the cursor before and after. *)
Definition emitted (tok : token) (cur : Text) (v : vars) (cur' : Text)
    (v' : vars) : list Range :=
  match tok with
  | TString _ => []
  | TToken type _ =>
      [mkRange (key cur) (v_endOffset v) (key cur') (v_endOffset v')
               [mkMark type]]
  end.

(** ** Worked inputs *)

Definition seg (k s : string) : Text := mkText k s.

(** A JavaScript block comment over three lines of a code block, the way
    Prism's grammar for JavaScript tokenizes it. *)
Definition comment_lines : list Text :=
  [seg "0" "/*"; seg "1" "x"; seg "2" "*/"].
Definition comment_tokens : list token :=
  [TToken "comment" (CString ("/*" ++ nl ++ "x" ++ nl ++ "*/"))].

(** The same comment with code before and after it. *)
Definition inline_comment_lines : list Text :=
  [seg "0" "a/*"; seg "1" "x"; seg "2" "*/bcd"].
Definition inline_comment_tokens : list token :=
  [TString "a";
   TToken "comment" (CString ("/*" ++ nl ++ "x" ++ nl ++ "*/"));
   TString "bcd"].

(** A tag over three lines of a code block, the way Prism's grammar for
    markup tokenizes it: the tag name and two attribute names, each on a
    line of its own, as nested tokens of the tag. *)
Definition tag_lines : list Text :=
  [seg "0" "<p"; seg "1" "a"; seg "2" "b>"].
Definition tag_tokens : list token :=
  [TToken "tag"
     (CArray
        [TToken "tag"
           (CArray [TToken "punctuation" (CString "<"); TString "p"]);
         TString nl;
         TToken "attr-name" (CArray [TString "a"]);
         TString nl;
         TToken "attr-name" (CArray [TString "b"]);
         TToken "punctuation" (CString ">")])].

(** A tokenizer that does what Prism's does when the grammar is missing:
    reading [grammar.rest] raises. *)
Definition strict_tokenize (s : string) (g : option unit)
    : result (list token) :=
  match g with
  | None => Throw (TypeError "Cannot read property 'rest' of undefined")
  | Some _ => Ok [TString s]
  end.

(** A tokenizer that classifies the text as one token whatever the grammar. *)
Definition lenient_tokenize (s : string) (g : option unit)
    : result (list token) :=
  Ok [TToken "text" (CString s)].

(** ** Absolute offsets *)

(** The character offset of a position in the code block: the text lengths
    of the segments before it, plus the offset in its segment. *)
Definition abs_offset (texts : list Text) (p : pos) : Z :=
  sum_len (firstn (fst p) texts) + snd p.

Definition abs_anchor (texts : list Text) (r : Range) : option Z :=
  option_map (abs_offset texts) (anchor_pos texts r).

Definition abs_focus (texts : list Text) (r : Range) : option Z :=
  option_map (abs_offset texts) (focus_pos texts r).

(** The values of the variables [start] and [end] at the structured tokens
    of a stream. *)
Fixpoint length_spans (start : Z) (tokens : list token) : list (Z * Z) :=
  match tokens with
  | [] => []
  | tok :: rest =>
      let end_ := start + token_length (getContent tok) in
      match tok with
      | TString _ => length_spans end_ rest
      | TToken _ _ => (start, end_) :: length_spans end_ rest
      end
  end.

(** The ranges of a stream laid out in one segment with key [k], from
    offset [start] on. *)
Fixpoint single_ranges (k : string) (start : Z) (tokens : list token)
    : list Range :=
  match tokens with
  | [] => []
  | tok :: rest =>
      let end_ := start + token_length (getContent tok) in
      match tok with
      | TString _ => single_ranges k end_ rest
      | TToken type _ =>
          mkRange k start k end_ [mkMark type] :: single_ranges k end_ rest
      end
  end.

(** The ranges of a stream, token by token, with a property [Q] of the
    value of [start] and the cursor at both ends of each structured
    token. *)
Inductive aligned (all : list Text) (Q : Z -> pos -> Prop)
    : Z -> list token -> list Range -> Prop :=
| aligned_nil s : aligned all Q s [] []
| aligned_plain s str toks ds :
    aligned all Q (s + token_length str) toks ds ->
    aligned all Q s (TString str :: toks) ds
| aligned_token s type c toks r ds i j :
    at_index all i (anchorKey r) ->
    at_index all j (focusKey r) ->
    Q s (i, anchorOffset r) ->
    Q (s + token_length (getContent (TToken type c))) (j, focusOffset r) ->
    aligned all Q (s + token_length (getContent (TToken type c))) toks ds ->
    aligned all Q s (TToken type c :: toks) (r :: ds).

(** A range is collapsed: anchor and focus are the same point. *)
Definition collapsed (r : Range) : Prop :=
  anchorKey r = focusKey r /\ anchorOffset r = focusOffset r.

(** No line feed in the text of any segment. *)
Definition line_feed_free (texts : list Text) : Prop :=
  Forall (fun t => count_char LF (text t) = 0) texts.

(** ** The text seen from the cursor *)

(** The segments after the current one in the joined text: each preceded
    by its separator. *)
Definition seps (texts : list Text) : string :=
  concat_strings (map (fun t => nl ++ text t) texts).

(** The part [R] of the joined text that lies after the end cursor
    ([cur], [eo]) with [texts] still queued: the rest of the current
    segment and all that follows; or, when the cursor waits at the end of
    its segment while the tokens have already passed separators, the text
    from the start of a later segment [t] on, every segment skipped in
    between being empty. *)
Definition remaining_text (texts : list Text) (cur : Text) (eo : Z)
    (R : string) : Prop :=
  (exists done u,
      text cur = done ++ u /\ strlen done = eo /\ R = u ++ seps texts)
  \/
  (exists empties t after,
      eo = strlen (text cur) /\
      texts = (empties ++ t :: after)%list /\
      Forall (fun e => text e = "") empties /\
      R = text t ++ seps after).

(** Every token holds at most one line feed. *)
Definition one_line_feed_each (tokens : list token) : Prop :=
  Forall (fun tok => count_char LF (getContent tok) <= 1) tokens.

(** The variables of the loop that a later token can read: all but
    [startText] and [startOffset], which every token assigns first. *)
Definition same_cursor (v v2 : vars) : Prop :=
  v_texts v = v_texts v2 /\ v_endText v = v_endText v2 /\
  v_endOffset v = v_endOffset v2 /\ v_start v = v_start v2 /\
  v_decorations v = v_decorations v2.

(** One token for each word and each separator of a code block of three
    lines, the second empty. *)
Definition three_lines : list Text :=
  [seg "0" "let x"; seg "1" ""; seg "2" "x = 1"].
Definition three_lines_tokens : list token :=
  [TToken "keyword" (CString "let"); TString " x";
   TToken "eol" (CString nl); TString (nl ++ "x ");
   TToken "operator" (CString "="); TString " ";
   TToken "number" (CString "1")].

(** ** The handlers of the editor *)

(** The calls the handlers make on a Slate change, in the order they are
    made.  What the calls do to the document is Slate's business. *)
Inductive command : Type :=
| Delete
| InsertText (s : string)
| ToggleMark (type : string)
| Select (target : Range)
| InsertBlock (type : string) (isVoid : bool) (data : list (string * string))
| SetBlocks (type : string)
| WrapBlock (type : string)
| UnwrapBlock (type : string).

Definition DEFAULT_NODE : string := "paragraph".

(** *** Images dropped or pasted *)

(** [String.prototype.endsWith(searchString, endPosition)], with its
    receiver written out.  The receiver is [None] when the method is
    called without an object, as a callback is: the method then raises. *)
Definition endsWith (this : option string) (searchString : string)
    (endPosition : option Z) : result bool :=
  match this with
  | None =>
      Throw (TypeError "String.prototype.endsWith called on null or undefined")
  | Some s =>
      let end_ := match endPosition with
                  | None => strlen s
                  | Some p => Z.min (Z.max p 0) (strlen s)
                  end in
      let start := end_ - strlen searchString in
      if start <? 0 then Ok false
      else Ok (String.eqb
                 (substring (Z.to_nat start)
                            (Z.to_nat (strlen searchString)) s)
                 searchString)
  end.

(** [a.find(callback)]: the callback is called as a plain function, with
    the element and its index, on the elements in order until it answers
    true. *)
Fixpoint find {A : Type} (callback : A -> Z -> result bool) (index : Z)
    (a : list A) : result (option A) :=
  match a with
  | [] => Ok None
  | x :: rest =>
      bind (callback x index) (fun found =>
      if found then Ok (Some x) else find callback (index + 1) rest)
  end.

(** [!!x] for a string or [undefined]. *)
Definition truthy (x : option string) : bool :=
  match x with
  | None => false
  | Some s => negb (String.eqb s "")
  end.

(** [isImage]: the expression [url.endsWith] is the method itself, taken
    off [url] and handed to [find] without it. *)
Definition isImage (imageExtensions : list string) (url : string)
    : result bool :=
  let callback := fun (ext : string) (index : Z) =>
                    endsWith None ext (Some index) in
  bind (find callback 0 imageExtensions) (fun found => Ok (truthy found)).

Definition insertImage (src : string) (target : option Range)
    : list command :=
  match target with
  | Some t => [Select t]
  | None => []
  end ++ [InsertBlock "image" true [("src", src)]].

Record File : Type := mkFile { file_name : string; file_type : string }.

(** What [getEventTransfer] returns, as far as the handler reads it. *)
Record Transfer : Type := mkTransfer {
  transfer_type : string;
  transfer_text : string;
  transfer_files : list File
}.

(** [const [mime] = file.type.split('/')] *)
Definition mime (file : File) : option string :=
  match split "/" (file_type file) with
  | [] => None
  | m :: _ => Some m
  end.

(** What a call of [onDropOrPaste] has done when it returns: the calls on
    the change, and the files handed to a [FileReader], whose [load]
    listener inserts the image later. *)
Record dropped : Type := mkDropped {
  drop_commands : list command;
  drop_reads : list File
}.

Section Images.

(** The list of the [image-extensions] package and the test of [is-url]. *)
Variable imageExtensions : list string.
Variable isUrl : string -> bool.

(** [target] is the result of [getEventRange], [transfer] of
    [getEventTransfer]. *)
Definition onDropOrPaste (event_type : string) (target : option Range)
    (transfer : Transfer) : result dropped :=
  if match target with None => true | Some _ => false end
     && String.eqb event_type "drop"
  then Ok (mkDropped [] [])
  else
    let reads :=
      if String.eqb (transfer_type transfer) "files"
      then filter (fun file =>
                     match mime file with
                     | Some m => String.eqb m "image"
                     | None => false
                     end)
                  (transfer_files transfer)
      else [] in
    if String.eqb (transfer_type transfer) "text" then
      if negb (isUrl (transfer_text transfer)) then Ok (mkDropped [] reads)
      else
        bind (isImage imageExtensions (transfer_text transfer)) (fun image =>
        if negb image then Ok (mkDropped [] reads)
        else Ok (mkDropped (insertImage (transfer_text transfer) target)
                           reads))
    else Ok (mkDropped [] reads).

End Images.

(** *** Keys *)

(** What a call of [onKeyDown] has done when it returns. *)
Record keyed : Type := mkKeyed {
  key_commands : list command;
  key_defaultPrevented : bool;
  key_returned : option bool
}.

Section Keys.

(** The keyboard event, its [key], and the four matchers made by
    [isKeyHotkey]. *)
Variable Event : Type.
Variable event_key : Event -> string.
Variable isBoldHotkey isItalicHotkey isUnderlinedHotkey isCodeHotkey
  : Event -> bool.

(** [startBlock_type] is [change.value.startBlock.type], [isExpanded] is
    [change.value.isExpanded]. *)
Definition onKeyDown (event : Event) (startBlock_type : string)
    (isExpanded : bool) : keyed :=
  if negb (String.eqb (event_key event) "Enter") then mkKeyed [] false None
  else if negb (String.eqb startBlock_type "code") then mkKeyed [] false None
  else
    let commands :=
      ((if isExpanded then [Delete] else []) ++ [InsertText nl])%list in
    let mark :=
      if isBoldHotkey event then Some "bold"
      else if isItalicHotkey event then Some "italic"
      else if isUnderlinedHotkey event then Some "underlined"
      else if isCodeHotkey event then Some "code"
      else None in
    match mark with
    | None => mkKeyed commands false None
    | Some m => mkKeyed (commands ++ [ToggleMark m]) true (Some true)
    end.

End Keys.

(** A key event as [is-hotkey] reads it: the key and whether the platform
    modifier is held; [mod+b] and the like accept their own key only. *)
Definition mod_hotkey (k : string) (event : string * bool) : bool :=
  String.eqb (fst event) k && snd event.

(** *** Block buttons *)

(** A block of the document: its key, its type and its ancestors from the
    parent outwards, which is what [document.getParent] and
    [document.getClosest] walk. *)
Record Block : Type := mkBlock {
  block_key : string;
  block_type : string;
  block_ancestors : list string
}.

(** [value.blocks.some(node => node.type == type)] *)
Definition hasBlock (blocks : list Block) (type : string) : bool :=
  existsb (fun node => String.eqb (block_type node) type) blocks.

Definition is_list_type (type : string) : bool :=
  String.eqb type "bulleted-list" || String.eqb type "numbered-list".

(** The type of [document.getParent(key)], when there is a parent. *)
Definition getParent (block : Block) : option string :=
  match block_ancestors block with
  | [] => None
  | parent :: _ => Some parent
  end.

(** [!!document.getClosest(key, parent => parent.type == type)] *)
Definition hasClosest (block : Block) (type : string) : bool :=
  existsb (fun parent => String.eqb parent type) (block_ancestors block).

(** The [isActive] that [renderBlockButton] passes to the button. *)
Definition renderBlockButton_isActive (blocks : list Block) (type : string)
    : result bool :=
  if is_list_type type then
    match blocks with
    | [] => Throw (TypeError "Cannot read property 'key' of undefined")
    | first :: _ =>
        Ok (hasBlock blocks "list-item"
            && match getParent first with
               | None => false
               | Some parent => String.eqb parent type
               end)
    end
  else Ok (hasBlock blocks type).

(** The calls [onClickBlock] makes on the change. *)
Definition onClickBlock (blocks : list Block) (type : string)
    : list command :=
  if negb (is_list_type type) then
    let isActive := hasBlock blocks type in
    let isList := hasBlock blocks "list-item" in
    if isList then
      [SetBlocks (if isActive then DEFAULT_NODE else type);
       UnwrapBlock "bulleted-list"; UnwrapBlock "numbered-list"]
    else [SetBlocks (if isActive then DEFAULT_NODE else type)]
  else
    let isList := hasBlock blocks "list-item" in
    let isType := existsb (fun block => hasClosest block type) blocks in
    if isList && isType then
      [SetBlocks DEFAULT_NODE;
       UnwrapBlock "bulleted-list"; UnwrapBlock "numbered-list"]
    else if isList then
      [UnwrapBlock (if String.eqb type "bulleted-list"
                    then "numbered-list" else "bulleted-list");
       WrapBlock type]
    else [SetBlocks "list-item"; WrapBlock type].

(** ** Induction on tokens *)

(** Structural induction through the arrays of nested tokens. *)
Section TokenInduction.

Variable P : token -> Prop.
Hypothesis P_string : forall s, P (TString s).
Hypothesis P_leaf : forall type s, P (TToken type (CString s)).
Hypothesis P_array :
  forall type ts, Forall P ts -> P (TToken type (CArray ts)).

Fixpoint token_nested_ind (t : token) : P t :=
  match t with
  | TString s => P_string s
  | TToken type (CString s) => P_leaf type s
  | TToken type (CArray ts) =>
      P_array type ts
        ((fix all (l : list token) : Forall P l :=
            match l with
            | [] => Forall_nil P
            | x :: rest => Forall_cons x (token_nested_ind x) (all rest)
            end) ts)
  end.

End TokenInduction.

(** * Properties *)

(** ** Strings *)

Lemma strlen_nonneg s : 0 <= strlen s.
Proof. unfold strlen. lia. Qed.

Lemma split_nonempty sep s : split sep s <> [].
Proof.
  destruct s as [|c s]; simpl; [discriminate|].
  destruct (Ascii.eqb c sep); [discriminate|].
  destruct (split sep s); discriminate.
Qed.

(** Splitting on a character yields one piece more than its occurrences. *)
Lemma split_count sep s : len (split sep s) - 1 = count_char sep s.
Proof.
  unfold len. induction s as [|c s IH]; simpl; [reflexivity|].
  destruct (Ascii.eqb c sep).
  - simpl length. lia.
  - destruct (split sep s) as [|piece pieces] eqn:E.
    + exfalso. exact (split_nonempty sep s E).
    + simpl length in *. lia.
Qed.

Lemma count_char_bounds c s : 0 <= count_char c s <= strlen s.
Proof.
  unfold strlen. induction s as [|c' s IH]; simpl String.length; simpl count_char.
  - lia.
  - destruct (Ascii.eqb c' c); lia.
Qed.

Lemma token_length_count s : token_length s = strlen s - count_char LF s.
Proof. unfold token_length. cbv zeta. rewrite split_count. reflexivity. Qed.

Lemma token_length_nonneg s : 0 <= token_length s.
Proof.
  rewrite token_length_count. pose proof (count_char_bounds LF s). lia.
Qed.

Lemma join_empty l : join "" l = concat_strings l.
Proof.
  induction l as [|x [|y rest] IH].
  - reflexivity.
  - simpl. clear IH. induction x as [|c x IHx]; simpl; congruence.
  - change (join "" (x :: y :: rest)) with (x ++ "" ++ join "" (y :: rest)).
    rewrite IH. reflexivity.
Qed.

Lemma concat_strings_app l1 l2 :
  concat_strings (l1 ++ l2) = concat_strings l1 ++ concat_strings l2.
Proof.
  induction l1 as [|x l1 IH]; simpl; [reflexivity|].
  rewrite IH. clear IH.
  induction x as [|c x IHx]; simpl; congruence.
Qed.

Lemma concat_strings_flat_map {A} (f : A -> list string) l :
  concat_strings (flat_map f l)
  = concat_strings (map (fun a => concat_strings (f a)) l).
Proof.
  induction l as [|a l IH]; simpl; [reflexivity|].
  rewrite concat_strings_app, IH. reflexivity.
Qed.

Lemma getContent_leaves t : getContent t = concat_strings (leaves t).
Proof.
  induction t as [s|type s|type ts IH] using token_nested_ind.
  - simpl. clear. induction s; simpl; congruence.
  - simpl. clear. induction s; simpl; congruence.
  - simpl. rewrite join_empty, concat_strings_flat_map. f_equal.
    induction IH as [|x l Hx _ IHl]; simpl; congruence.
Qed.

(** ** Document order *)

Lemma pos_le_refl p : pos_le p p.
Proof. right. split; [reflexivity|lia]. Qed.

Lemma pos_le_trans p q r : pos_le p q -> pos_le q r -> pos_le p r.
Proof. unfold pos_le. intros [H1|[H1 H1']] [H2|[H2 H2']]; lia. Qed.

Lemma chain_bounds all p ds q : chain all p ds q -> pos_le p q.
Proof.
  induction 1 as [p q H|p i j r ds q _ _ H1 H2 _ IH]; [exact H|].
  eauto using pos_le_trans.
Qed.

Lemma chain_app all p ds1 q ds2 r :
  chain all p ds1 q -> chain all q ds2 r -> chain all p (ds1 ++ ds2) r.
Proof.
  induction 1 as [p q H|p i j x ds q Hi Hj H1 H2 _ IH]; intros H'; simpl.
  - destruct H' as [q r H'|q i j x ds r Hi Hj H1 H2 H3].
    + constructor. eauto using pos_le_trans.
    + econstructor; eauto using pos_le_trans.
  - econstructor; eauto.
Qed.

Lemma at_index_middle pre cur rest :
  at_index (pre ++ cur :: rest) (List.length pre) (key cur).
Proof.
  exists cur. split; [|reflexivity].
  rewrite nth_error_app2 by lia. rewrite Nat.sub_diag. reflexivity.
Qed.

(** ** The segment-advancing loop *)

Lemma sum_len_app l1 l2 : sum_len (l1 ++ l2) = sum_len l1 + sum_len l2.
Proof.
  unfold sum_len. induction l1 as [|t l1 IH]; simpl; [reflexivity|].
  rewrite IH. lia.
Qed.

Lemma sum_len_nonneg l : 0 <= sum_len l.
Proof.
  unfold sum_len. induction l as [|t l IH]; simpl; [lia|].
  pose proof (strlen_nonneg (text t)). lia.
Qed.

(** The loop leaves its variables alone when its condition fails at once. *)
Lemma advance_stay length texts endText available remaining endOffset :
  remaining <= available \/ texts = [] ->
  advance length texts endText available remaining endOffset
  = mkW texts endText available remaining endOffset.
Proof.
  intros [H| ->].
  - destruct texts; simpl; destruct (Z.ltb_spec available remaining);
      try lia; reflexivity.
  - simpl. destruct (available <? remaining); reflexivity.
Qed.

(** The loop from its second test on: the cursor has just moved to segment
    [t] with [r] characters of the token still to place. *)
Lemma advance_steady length rest :
  forall pre t r,
    0 < r <= length ->
    let w := advance length rest t (strlen (text t)) r r in
    exists pre',
      (pre ++ t :: rest = pre' ++ w_endText w :: w_texts w)%list /\
      ((pre' = pre /\ w_endOffset w = r)
       \/ (List.length pre < List.length pre')%nat) /\
      0 < w_endOffset w <= length /\
      (w_endOffset w <= strlen (text (w_endText w)) \/ w_texts w = []) /\
      sum_len pre + r <= sum_len pre' + w_endOffset w.
Proof.
  induction rest as [|t' rest IH]; intros pre t r Hr; cbv zeta.
  - rewrite advance_stay by (right; reflexivity). simpl.
    exists pre. repeat split; try lia; auto.
  - simpl advance. destruct (Z.ltb_spec (strlen (text t)) r) as [Hlt|Hge].
    + pose proof (strlen_nonneg (text t)) as Ht.
      destruct (IH (pre ++ [t])%list t' (length - strlen (text t)))
        as (pre' & Hsplit & Hmove & Hoff & Hhigh & Hsum); [lia|].
      exists pre'. rewrite <- app_assoc in Hsplit. simpl in Hsplit.
      split; [exact Hsplit|].
      assert (Hlen : (List.length pre < List.length pre')%nat).
      { destruct Hmove as [[-> _]|Hm]; rewrite ?length_app in *; simpl in *; lia. }
      split; [right; exact Hlen|].
      split; [exact Hoff|]. split; [exact Hhigh|].
      rewrite sum_len_app in Hsum. unfold sum_len at 2 in Hsum.
      simpl in Hsum. lia.
    + simpl. exists pre. repeat split; try lia; auto.
Qed.

(** ** One token *)

Lemma for_body_step all v pre cur tok :
  located all v pre cur ->
  exists v' pre' cur',
    for_body tok v = Ok v' /\
    located all v' pre' cur' /\
    v_start v' = v_start v + token_length (getContent tok) /\
    pos_le (List.length pre, v_endOffset v)
           (List.length pre', v_endOffset v') /\
    v_decorations v' = (v_decorations v ++ emitted tok cur v cur' v')%list.
Proof.
  intros [Hsplit Hend Hlow Hhigh Hsum].
  unfold for_body. rewrite Hend. cbv zeta.
  set (L := token_length (getContent tok)).
  assert (HL : 0 <= L) by apply token_length_nonneg.
  set (so := v_endOffset v) in *.
  destruct (v_texts v) as [|t rest] eqn:Htexts.
  - (* no segment left to move to *)
    rewrite advance_stay by (right; reflexivity). simpl.
    eexists _, pre, cur. split; [reflexivity|].
    split; [constructor; simpl; auto; lia|].
    split; [reflexivity|]. split; [right; simpl; lia|].
    destruct tok; simpl; [rewrite app_nil_r|]; reflexivity.
  - destruct (Z.ltb_spec (strlen (text cur) - so) L) as [Hlt|Hge].
    + (* the token runs past the end of the current segment *)
      destruct Hhigh as [Hhigh|Hnil]; [|discriminate].
      simpl advance. destruct (Z.ltb_spec (strlen (text cur) - so) L); [|lia].
      destruct (advance_steady L rest (pre ++ [cur])%list t
                  (L - (strlen (text cur) - so)))
        as (pre' & Hsp & Hmove & Hoff & Hhi & Hs); [lia|].
      set (w := advance L rest t (strlen (text t))
                  (L - (strlen (text cur) - so))
                  (L - (strlen (text cur) - so))) in *.
      eexists _, pre', (w_endText w). split; [reflexivity|].
      rewrite <- app_assoc in Hsp. simpl in Hsp.
      rewrite sum_len_app in Hs. unfold sum_len at 2 in Hs. simpl in Hs.
      split; [constructor; simpl; auto; try lia; congruence|].
      split; [reflexivity|].
      split.
      { left. simpl.
        destruct Hmove as [[-> _]|Hm]; rewrite ?length_app in *; simpl in *; lia. }
      destruct tok; simpl; [rewrite app_nil_r|]; reflexivity.
    + (* the token ends inside the current segment *)
      rewrite advance_stay by (left; lia). simpl.
      eexists _, pre, cur. split; [reflexivity|].
      split; [constructor; simpl; auto; lia|].
      split; [reflexivity|]. split; [right; simpl; lia|].
      destruct tok; simpl; [rewrite app_nil_r|]; reflexivity.
Qed.

(** ** The whole token stream *)

Lemma for_of_run all tokens :
  forall v pre cur,
    located all v pre cur ->
    exists v' pre' cur' ds,
      for_of tokens v = Ok v' /\
      located all v' pre' cur' /\
      v_start v' = v_start v + tokens_length tokens /\
      v_decorations v' = (v_decorations v ++ ds)%list /\
      chain all (List.length pre, v_endOffset v) ds
                (List.length pre', v_endOffset v') /\
      map marks ds = type_marks tokens.
Proof.
  induction tokens as [|tok tokens IH]; intros v pre cur Hloc.
  - exists v, pre, cur, []. simpl. rewrite app_nil_r.
    split; [reflexivity|]. split; [exact Hloc|]. split; [lia|].
    split; [reflexivity|]. split; [|reflexivity].
    constructor. apply pos_le_refl.
  - destruct (for_body_step all v pre cur tok Hloc)
      as (v1 & pre1 & cur1 & Hbody & Hloc1 & Hstart1 & Hle1 & Hdec1).
    destruct (IH v1 pre1 cur1 Hloc1)
      as (v' & pre' & cur' & ds & Hrun & Hloc' & Hstart' & Hdec' & Hch & Hm).
    exists v', pre', cur', (emitted tok cur v cur1 v1 ++ ds)%list.
    simpl for_of. rewrite Hbody. simpl bind.
    split; [exact Hrun|]. split; [exact Hloc'|].
    split; [simpl tokens_length; lia|].
    split; [rewrite Hdec', Hdec1, app_assoc; reflexivity|].
    pose proof (loc_split _ _ _ _ Hloc) as Hs.
    pose proof (loc_split _ _ _ _ Hloc1) as Hs1.
    destruct tok as [s|type c]; simpl emitted; simpl app.
    + split; [|exact Hm].
      change ds with ([] ++ ds)%list.
      eapply chain_app; [constructor; exact Hle1|exact Hch].
    + split.
      * apply chain_cons
          with (i := List.length pre) (j := List.length pre1); simpl.
        -- rewrite Hs. apply at_index_middle.
        -- rewrite Hs1. apply at_index_middle.
        -- apply pos_le_refl.
        -- exact Hle1.
        -- exact Hch.
      * unfold type_marks in *. simpl. rewrite Hm. reflexivity.
Qed.

Lemma decorate_vars_run t rest tokens :
  exists v pre cur,
    decorate_vars (t :: rest) tokens = Ok v /\
    located (t :: rest) v pre cur /\
    v_start v = tokens_length tokens /\
    chain (t :: rest) (O, 0) (v_decorations v)
          (List.length pre, v_endOffset v) /\
    map marks (v_decorations v) = type_marks tokens.
Proof.
  destruct (for_of_run (t :: rest) tokens (init_vars (t :: rest)) [] t)
    as (v & pre & cur & ds & Hrun & Hloc & Hstart & Hdec & Hch & Hm).
  { pose proof (strlen_nonneg (text t)).
    constructor; simpl; auto; lia. }
  exists v, pre, cur. simpl in Hdec, Hstart, Hch. subst ds.
  unfold decorate_vars. auto.
Qed.

Lemma decorate_of_vars texts tokens v :
  decorate_vars texts tokens = Ok v ->
  decorate texts tokens = Ok (v_decorations v).
Proof. unfold decorate. intros ->. reflexivity. Qed.

(** ** Segment keys *)

Lemma key_index_at all :
  NoDup (map key all) ->
  forall i k, at_index all i k -> key_index all k = Some i.
Proof.
  induction all as [|t all IH]; intros Hnd i k (x & Hnth & Hk).
  - destruct i; discriminate.
  - simpl in Hnd. inversion Hnd as [|? ? Hnotin Hnd']; subst.
    destruct i as [|i]; simpl in Hnth.
    + injection Hnth as ->. simpl. rewrite String.eqb_refl. reflexivity.
    + simpl. destruct (String.eqb_spec (key t) (key x)) as [He|_].
      * exfalso. apply Hnotin. rewrite He.
        apply in_map. eapply nth_error_In. exact Hnth.
      * rewrite (IH Hnd' i (key x)); [reflexivity|].
        exists x. split; [exact Hnth|reflexivity].
Qed.

Lemma chain_each all p ds q :
  chain all p ds q ->
  forall r, In r ds ->
    exists i j,
      at_index all i (anchorKey r) /\ at_index all j (focusKey r) /\
      pos_le p (i, anchorOffset r) /\
      pos_le (i, anchorOffset r) (j, focusOffset r).
Proof.
  induction 1 as [p q H|p i j x ds q Hi Hj H1 H2 Hch IH]; intros r Hin.
  - destruct Hin.
  - destruct Hin as [<-|Hin].
    + exists i, j. auto.
    + destruct (IH r Hin) as (i' & j' & Hi' & Hj' & H1' & H2').
      exists i', j'. repeat split; auto.
      eauto using pos_le_trans.
Qed.

Lemma chain_sorted all p ds q :
  chain all p ds q ->
  forall m n r1 r2,
    (m <= n)%nat -> nth_error ds m = Some r1 -> nth_error ds n = Some r2 ->
    exists i1 i2,
      at_index all i1 (anchorKey r1) /\ at_index all i2 (anchorKey r2) /\
      pos_le (i1, anchorOffset r1) (i2, anchorOffset r2).
Proof.
  induction 1 as [p q H|p i j x ds q Hi Hj H1 H2 Hch IH];
    intros m n r1 r2 Hmn Hm Hn.
  - destruct m; discriminate.
  - destruct m as [|m]; simpl in Hm.
    + injection Hm as <-. destruct n as [|n]; simpl in Hn.
      * injection Hn as <-. exists i, i. auto using pos_le_refl.
      * destruct (chain_each _ _ _ _ Hch r2 (nth_error_In _ _ Hn))
          as (i2 & _ & Hi2 & _ & Hle & _).
        exists i, i2. repeat split; auto. eauto using pos_le_trans.
    + destruct n as [|n]; [lia|]. simpl in Hn.
      apply (IH m n); auto. lia.
Qed.

(** ** The claims *)

(** C1.  For the two segments "ab" and "cd" and the tokens "a" and
    [{type: "tag", content: "b\nc"}] exactly one range is emitted, from
    offset 1 of the first segment to offset 1 of the second; the token's
    content has three characters and counts for two. *)
Theorem cross_segment_split (k0 k1 : string) :
  let texts := [mkText k0 "ab"; mkText k1 "cd"] in
  let content := "b" ++ nl ++ "c" in
  joined texts = "ab" ++ nl ++ "cd" /\
  strlen content = 3 /\
  token_length content = 2 /\
  decorate texts [TString "a"; TToken "tag" (CString content)]
  = Ok [mkRange k0 1 k1 1 [mkMark "tag"]].
Proof. repeat split. Qed.

(** C2 (the code departs from the claim).  A comment token over three
    segments, between two plain tokens of a matching stream: the emitted
    range covers the comment's characters and two characters more, which
    belong to the plain token after it. *)
Theorem three_line_comment_covers_following_text :
  matching inline_comment_lines inline_comment_tokens /\
  decorate inline_comment_lines inline_comment_tokens
  = Ok [mkRange "0" 1 "2" 4 [mkMark "comment"]] /\
  map (span_cells inline_comment_lines)
      (token_spans 0 inline_comment_tokens)
  = [[(0%nat, 1); (0%nat, 2); (1%nat, 0); (2%nat, 0); (2%nat, 1)]] /\
  map (range_cells inline_comment_lines)
      [mkRange "0" 1 "2" 4 [mkMark "comment"]]
  = [[(0%nat, 1); (0%nat, 2); (1%nat, 0); (2%nat, 0); (2%nat, 1);
      (2%nat, 2); (2%nat, 3)]].
Proof. repeat split. Qed.

(** C3 (the code departs from the claim).  A comment token that is the
    whole of three segments, a matching stream: the emitted range has
    focus offset 4 in a segment of length 2. *)
Theorem three_line_comment_focus_out_of_bounds :
  matching comment_lines comment_tokens /\
  decorate comment_lines comment_tokens
  = Ok [mkRange "0" 0 "2" 4 [mkMark "comment"]] /\
  strlen (text (nth 2 comment_lines (mkText "" ""))) = 2 /\
  in_bounds comment_lines (mkRange "0" 0 "2" 4 [mkMark "comment"]) = false.
Proof. repeat split. Qed.

(** C4 (counterexample).  With no grammar registered for the node's
    language, a tokenizer that raises on the missing grammar makes
    [decorateNode] raise, and one that returns a structured token makes
    it return a range. *)
Lemma missing_grammar_not_empty :
  let node := mkNode "code" (Some "python") [seg "0" "x = 1"] in
  decorateNode unit (fun _ => None) strict_tokenize node
  = Throw (TypeError "Cannot read property 'rest' of undefined") /\
  decorateNode unit (fun _ => None) lenient_tokenize node
  = Ok (Some [mkRange "0" 0 "0" 5 [mkMark "text"]]).
Proof. split; reflexivity. Qed.

(** C4 (amended).  For a code block whose language has no registered
    grammar, [decorateNode] hands the missing grammar to the tokenizer
    unchecked: an exception of the tokenizer leaves [decorateNode], and a
    token stream is mapped as any other, to no range exactly when it has
    no structured token. *)
Theorem missing_grammar_defers_to_tokenizer
    (grammar : Type) (languages : string -> option grammar)
    (tokenize : string -> option grammar -> result (list token))
    (node : Node) :
  node_type node = "code" ->
  node_texts node <> [] ->
  languages (property_key (node_language node)) = None ->
  match tokenize (joined (node_texts node)) None with
  | Throw e => decorateNode grammar languages tokenize node = Throw e
  | Ok tokens =>
      exists ds,
        decorateNode grammar languages tokenize node = Ok (Some ds) /\
        decorate (node_texts node) tokens = Ok ds /\
        (ds = [] <-> structured_types tokens = [])
  end.
Proof.
  intros Htype Htexts Hlang. unfold decorateNode.
  rewrite Htype, Hlang. simpl negb. cbv iota zeta. fold (joined (node_texts node)).
  destruct (tokenize (joined (node_texts node)) None) as [tokens|e];
    [|reflexivity].
  destruct (node_texts node) as [|t rest]; [contradiction|].
  destruct (decorate_vars_run t rest tokens)
    as (v & pre & cur & Hrun & _ & _ & _ & Hm).
  exists (v_decorations v). simpl bind.
  rewrite (decorate_of_vars _ _ _ Hrun). simpl.
  split; [reflexivity|]. split; [reflexivity|].
  unfold type_marks in Hm.
  split; intros H.
  - rewrite H in Hm. simpl in Hm.
    destruct (structured_types tokens); [reflexivity|discriminate].
  - rewrite H in Hm. simpl in Hm.
    destruct (v_decorations v); [reflexivity|discriminate].
Qed.

Lemma missing_grammar_defers_to_tokenizer_witness :
  decorateNode unit (fun _ => None) strict_tokenize
    (mkNode "code" (Some "python") [seg "0" "x = 1"])
  = Throw (TypeError "Cannot read property 'rest' of undefined").
Proof.
  exact (missing_grammar_defers_to_tokenizer unit (fun _ => None)
           strict_tokenize
           (mkNode "code" (Some "python") [seg "0" "x = 1"])
           eq_refl ltac:(discriminate) eq_refl).
Defined.

(** ** Streams longer than the segments *)

Lemma for_of_app toks tok v :
  for_of (toks ++ [tok]) v = bind (for_of toks v) (for_body tok).
Proof.
  revert v. induction toks as [|x toks IH]; intros v; simpl.
  - destruct (for_body tok v); reflexivity.
  - destruct (for_body x v) as [v1|e]; simpl; [apply IH|reflexivity].
Qed.

Lemma for_body_structured type c v v' :
  for_body (TToken type c) v = Ok v' ->
  exists ds r last,
    v_decorations v' = (ds ++ [r])%list /\
    v_endText v' = Some last /\
    focusKey r = key last /\
    focusOffset r = v_endOffset v' /\
    marks r = [mkMark type].
Proof.
  unfold for_body. destruct (v_endText v) as [st|]; [|discriminate].
  cbv zeta. intros H. injection H as <-. simpl.
  eexists _, _, _. repeat split.
Qed.

(** C5 (counterexample).  One segment "ab" and a token of three
    characters: no error is raised, and the range ends at offset 3. *)
Lemma overlong_token_no_error :
  let texts := [seg "0" "ab"] in
  let tokens := [TToken "keyword" (CString "abc")] in
  sum_len texts < tokens_length tokens /\
  decorate texts tokens = Ok [mkRange "0" 0 "0" 3 [mkMark "keyword"]].
Proof. split; reflexivity. Qed.

(** C5 (amended).  When the token stream is longer than the segment
    texts together, [decorateNode] raises no error: it returns its ranges,
    the end cursor finishes on the last segment at an offset beyond the
    length of its text, and a structured last token gets a range with this
    focus. *)
Theorem overlong_stream_runs_past_last_segment
    (texts : list Text) (tokens : list token) :
  texts <> [] ->
  sum_len texts < tokens_length tokens ->
  exists v before last,
    decorate_vars texts tokens = Ok v /\
    decorate texts tokens = Ok (v_decorations v) /\
    texts = (before ++ [last])%list /\
    v_texts v = [] /\
    v_endText v = Some last /\
    strlen (text last) < v_endOffset v /\
    (forall toks type c,
        tokens = (toks ++ [TToken type c])%list ->
        exists ds r,
          v_decorations v = (ds ++ [r])%list /\
          focusKey r = key last /\
          focusOffset r = v_endOffset v).
Proof.
  intros Hne Hlong. destruct texts as [|t rest]; [contradiction|].
  destruct (decorate_vars_run t rest tokens)
    as (v & pre & cur & Hrun & Hloc & Hstart & _ & _).
  destruct Hloc as [Hsplit Hend Hlow Hhigh Hsum].
  assert (Hpast : strlen (text cur) + sum_len (v_texts v) < v_endOffset v).
  { rewrite Hsplit, sum_len_app in Hlong.
    change (sum_len (cur :: v_texts v))
      with (strlen (text cur) + sum_len (v_texts v)) in Hlong.
    lia. }
  pose proof (sum_len_nonneg (v_texts v)) as Hq.
  assert (Hnil : v_texts v = []) by (destruct Hhigh; [lia|assumption]).
  exists v, pre, cur.
  split; [exact Hrun|]. split; [exact (decorate_of_vars _ _ _ Hrun)|].
  split; [rewrite Hsplit, Hnil; reflexivity|].
  split; [exact Hnil|]. split; [exact Hend|]. split; [lia|].
  intros toks type c ->.
  unfold decorate_vars in Hrun. rewrite for_of_app in Hrun.
  destruct (for_of toks (init_vars (t :: rest))) as [v1|e];
    [|discriminate].
  simpl bind in Hrun.
  destruct (for_body_structured _ _ _ _ Hrun)
    as (ds & r & last & Hdec & Hlast & Hk & Ho & _).
  exists ds, r. rewrite Hend in Hlast. injection Hlast as <-. auto.
Qed.

Lemma overlong_stream_runs_past_last_segment_witness :
  exists v before last,
    decorate_vars [seg "0" "ab"] [TToken "keyword" (CString "abc")] = Ok v /\
    decorate [seg "0" "ab"] [TToken "keyword" (CString "abc")]
    = Ok (v_decorations v) /\
    [seg "0" "ab"] = (before ++ [last])%list /\
    v_texts v = [] /\
    v_endText v = Some last /\
    strlen (text last) < v_endOffset v /\
    (forall toks type c,
        [TToken "keyword" (CString "abc")] = (toks ++ [TToken type c])%list ->
        exists ds r,
          v_decorations v = (ds ++ [r])%list /\
          focusKey r = key last /\
          focusOffset r = v_endOffset v).
Proof.
  apply (overlong_stream_runs_past_last_segment
           [seg "0" "ab"] [TToken "keyword" (CString "abc")]).
  - discriminate.
  - reflexivity.
Defined.

(** C6 (counterexample).  For the segment "let x = 1;" and the stream
    [keyword "let"], " x = ", [number "1"], ";" the ranges are not the
    pair [0,3) and [9,10). *)
Lemma single_segment_number_not_at_9 :
  decorate [seg "0" "let x = 1;"]
           [TToken "keyword" (CString "let"); TString " x = ";
            TToken "number" (CString "1"); TString ";"]
  <> Ok [mkRange "0" 0 "0" 3 [mkMark "keyword"];
         mkRange "0" 9 "0" 10 [mkMark "number"]].
Proof. discriminate. Qed.

(** C6 (amended).  For the segment "let x = 1;" and the stream
    [keyword "let"], " x = ", [number "1"], ";" exactly two ranges are
    emitted: "keyword" over the offsets [0,3) and "number" over the
    offsets [8,9), where the character "1" stands. *)
Theorem single_segment_ranges (k : string) :
  decorate [mkText k "let x = 1;"]
           [TToken "keyword" (CString "let"); TString " x = ";
            TToken "number" (CString "1"); TString ";"]
  = Ok [mkRange k 0 k 3 [mkMark "keyword"];
        mkRange k 8 k 9 [mkMark "number"]]
  /\ String.get 8 "let x = 1;" = Some "1"%char.
Proof. split; reflexivity. Qed.

(** C7.  For a segment list of length at least one and any token stream,
    [decorateNode] returns one range for each structured token and none
    for a plain string, in the order of the tokens, and the mark list of
    each range is the one mark with its token's type. *)
Theorem one_range_per_structured_token
    (texts : list Text) (tokens : list token) :
  texts <> [] ->
  exists ds,
    decorate texts tokens = Ok ds /\
    List.length ds = List.length (structured_types tokens) /\
    map marks ds = map (fun type => [mkMark type]) (structured_types tokens).
Proof.
  intros Hne. destruct texts as [|t rest]; [contradiction|].
  destruct (decorate_vars_run t rest tokens)
    as (v & pre & cur & Hrun & _ & _ & _ & Hm).
  exists (v_decorations v). split; [exact (decorate_of_vars _ _ _ Hrun)|].
  split; [|exact Hm].
  apply (f_equal (@List.length _)) in Hm. unfold type_marks in Hm.
  rewrite !length_map in Hm. exact Hm.
Qed.

Lemma one_range_per_structured_token_witness :
  exists ds,
    decorate [seg "0" "ab"; seg "1" "cd"]
             [TString "a"; TToken "tag" (CString ("b" ++ nl ++ "c"));
              TString "d"] = Ok ds /\
    List.length ds = 1%nat /\
    map marks ds = [[mkMark "tag"]].
Proof.
  apply (one_range_per_structured_token
           [seg "0" "ab"; seg "1" "cd"]
           [TString "a"; TToken "tag" (CString ("b" ++ nl ++ "c"));
            TString "d"]).
  discriminate.
Defined.

(** C8 (the code departs from the claim).  A tag token with nested
    content over three segments, a matching stream: [getContent] returns
    the concatenation of the nested contents, the leaf strings from left
    to right, but the one range emitted for the token does not span it:
    the range has focus offset 4 in a segment of length 2, two characters
    past the end of the tag. *)
Theorem nested_tag_range_past_its_content :
  let range := mkRange "0" 0 "2" 4 [mkMark "tag"] in
  map getContent tag_tokens = ["<p" ++ nl ++ "a" ++ nl ++ "b>"] /\
  map getContent tag_tokens
  = map (fun tok => concat_strings (leaves tok)) tag_tokens /\
  matching tag_lines tag_tokens /\
  decorate tag_lines tag_tokens = Ok [range] /\
  map (span_cells tag_lines) (token_spans 0 tag_tokens)
  = [[(0%nat, 0); (0%nat, 1); (1%nat, 0); (2%nat, 0); (2%nat, 1)]] /\
  map (range_cells tag_lines) [range]
  = [[(0%nat, 0); (0%nat, 1); (1%nat, 0); (2%nat, 0); (2%nat, 1);
      (2%nat, 2); (2%nat, 3)]] /\
  strlen (text (nth 2 tag_lines (mkText "" ""))) = 2 /\
  in_bounds tag_lines range = false.
Proof. repeat split. Qed.

(** ** Termination of the segment-advancing loop *)

(** Iterating the loop body while the condition holds reaches the result
    of [advance] in at most as many iterations as there are segments
    queued. *)
Lemma while_fuel_advance length texts :
  forall endText available remaining endOffset fuel,
    (List.length texts <= fuel)%nat ->
    while_fuel fuel length (mkW texts endText available remaining endOffset)
    = Some (advance length texts endText available remaining endOffset).
Proof.
  induction texts as [|t rest IH];
    intros endText available remaining endOffset fuel Hfuel.
  - assert (Hc : while_cond (mkW [] endText available remaining endOffset)
                 = false).
    { unfold while_cond. simpl. apply andb_false_r. }
    destruct fuel; simpl while_fuel; rewrite Hc;
      rewrite advance_stay by (right; reflexivity); reflexivity.
  - destruct fuel as [|fuel]; [simpl in Hfuel; lia|].
    simpl in Hfuel. simpl while_fuel. unfold while_cond. simpl.
    rewrite andb_true_r.
    destruct (available <? remaining); [|reflexivity].
    unfold while_body. simpl. apply IH. lia.
Qed.

Lemma advance_queue length texts :
  forall endText available remaining endOffset,
    (List.length
       (w_texts (advance length texts endText available remaining endOffset))
     <= List.length texts)%nat.
Proof.
  induction texts as [|t rest IH];
    intros endText available remaining endOffset; simpl.
  - destruct (available <? remaining); simpl; lia.
  - destruct (available <? remaining); simpl; [|lia].
    specialize (IH t (strlen (text t)) (length - available)
                  (length - available)). lia.
Qed.

(** An empty segment between two others, at a token boundary and inside a
    token. *)
Example empty_segment_between :
  let texts := [seg "0" "ab"; seg "1" ""; seg "2" "cd"] in
  decorate texts [TToken "a" (CString "ab"); TString (nl ++ nl);
                  TToken "b" (CString "cd")]
  = Ok [mkRange "0" 0 "0" 2 [mkMark "a"];
        mkRange "0" 2 "2" 2 [mkMark "b"]].
Proof. reflexivity. Qed.

(** C9.  For a segment list of length at least one, with or without empty
    segments, [decorateNode] returns; its inner loop ends after at most
    as many iterations as segments are queued; and an empty segment the
    cursor moves onto makes zero characters available and, while a
    segment follows, the loop moves on past it. *)
Theorem segment_loop_terminates (texts : list Text) (tokens : list token) :
  texts <> [] ->
  (exists v,
      decorate_vars texts tokens = Ok v /\
      decorate texts tokens = Ok (v_decorations v)) /\
  (forall length w fuel,
      (List.length (w_texts w) <= fuel)%nat ->
      while_fuel fuel length w
      = Some (advance length (w_texts w) (w_endText w) (w_available w)
                      (w_remaining w) (w_endOffset w))) /\
  (forall length w e rest,
      w_texts w = e :: rest ->
      text e = "" ->
      rest <> [] ->
      while_cond w = true ->
      w_remaining w <= length ->
      let w1 := while_body length w in
      let final := advance length (w_texts w) (w_endText w) (w_available w)
                           (w_remaining w) (w_endOffset w) in
      w_endText w1 = e /\
      w_available w1 = 0 /\
      while_cond w1 = true /\
      (List.length (w_texts final) < List.length rest)%nat).
Proof.
  intros Hne. split; [|split].
  - destruct texts as [|t rest]; [contradiction|].
    destruct (decorate_vars_run t rest tokens) as (v & _ & _ & Hrun & _).
    exists v. split; [exact Hrun|exact (decorate_of_vars _ _ _ Hrun)].
  - intros length [ts e a r o] fuel Hfuel. simpl in *.
    apply while_fuel_advance. exact Hfuel.
  - intros length [ts c a r o] e rest Hts He Hrest Hcond Hrem. simpl in *.
    subst ts. unfold while_cond in Hcond. simpl in Hcond.
    apply andb_prop in Hcond. destruct Hcond as [Hlt _].
    apply Z.ltb_lt in Hlt.
    unfold while_body, while_cond. simpl. rewrite He.
    change (strlen "") with 0.
    destruct rest as [|t' rest']; [contradiction|].
    split; [reflexivity|]. split; [reflexivity|].
    assert (Hpos : (0 <? length - a) = true) by (apply Z.ltb_lt; lia).
    split; [rewrite Hpos; reflexivity|].
    apply Z.ltb_lt in Hlt. rewrite Hlt. simpl advance. rewrite Hpos.
    pose proof (advance_queue length rest' t' (strlen (text t'))
                  (length - 0) (length - 0)).
    simpl List.length. lia.
Qed.

Lemma segment_loop_terminates_witness :
  exists v,
    decorate_vars [seg "0" "ab"; seg "1" ""; seg "2" "cd"]
                  [TString "a";
                   TToken "tag" (CString ("b" ++ nl ++ nl ++ "c"));
                   TString "d"] = Ok v /\
    decorate [seg "0" "ab"; seg "1" ""; seg "2" "cd"]
             [TString "a";
              TToken "tag" (CString ("b" ++ nl ++ nl ++ "c"));
              TString "d"] = Ok (v_decorations v).
Proof.
  apply (segment_loop_terminates
           [seg "0" "ab"; seg "1" ""; seg "2" "cd"]
           [TString "a";
            TToken "tag" (CString ("b" ++ nl ++ nl ++ "c"));
            TString "d"]).
  discriminate.
Defined.

(** C10.  For a segment list of length at least one with distinct keys,
    every emitted range has its focus at or after its anchor: the focus
    segment is the anchor segment or a later one, and in the same segment
    the focus offset is not below the anchor offset; and ranges emitted
    later are anchored at the same position or further on. *)
Theorem ranges_run_forward (texts : list Text) (tokens : list token) :
  texts <> [] ->
  NoDup (map key texts) ->
  exists ds,
    decorate texts tokens = Ok ds /\
    (forall r, In r ds ->
       exists i j,
         anchor_pos texts r = Some (i, anchorOffset r) /\
         focus_pos texts r = Some (j, focusOffset r) /\
         (i <= j)%nat /\
         (i = j -> anchorOffset r <= focusOffset r)) /\
    (forall m n r1 r2,
        (m <= n)%nat ->
        nth_error ds m = Some r1 ->
        nth_error ds n = Some r2 ->
        exists p1 p2,
          anchor_pos texts r1 = Some p1 /\
          anchor_pos texts r2 = Some p2 /\
          pos_le p1 p2).
Proof.
  intros Hne Hnd. destruct texts as [|t rest]; [contradiction|].
  destruct (decorate_vars_run t rest tokens)
    as (v & pre & cur & Hrun & _ & _ & Hch & _).
  exists (v_decorations v). split; [exact (decorate_of_vars _ _ _ Hrun)|].
  split.
  - intros r Hin.
    destruct (chain_each _ _ _ _ Hch r Hin) as (i & j & Hi & Hj & _ & Hle).
    exists i, j. unfold anchor_pos, focus_pos.
    rewrite (key_index_at _ Hnd _ _ Hi), (key_index_at _ Hnd _ _ Hj).
    split; [reflexivity|]. split; [reflexivity|].
    unfold pos_le in Hle. simpl in Hle. lia.
  - intros m n r1 r2 Hmn Hm Hn.
    destruct (chain_sorted _ _ _ _ Hch m n r1 r2 Hmn Hm Hn)
      as (i1 & i2 & Hi1 & Hi2 & Hle).
    exists (i1, anchorOffset r1), (i2, anchorOffset r2).
    unfold anchor_pos.
    rewrite (key_index_at _ Hnd _ _ Hi1), (key_index_at _ Hnd _ _ Hi2).
    auto.
Qed.

Lemma ranges_run_forward_witness :
  exists ds,
    decorate inline_comment_lines inline_comment_tokens = Ok ds /\
    (forall r, In r ds ->
       exists i j,
         anchor_pos inline_comment_lines r = Some (i, anchorOffset r) /\
         focus_pos inline_comment_lines r = Some (j, focusOffset r) /\
         (i <= j)%nat /\
         (i = j -> anchorOffset r <= focusOffset r)) /\
    (forall m n r1 r2,
        (m <= n)%nat ->
        nth_error ds m = Some r1 ->
        nth_error ds n = Some r2 ->
        exists p1 p2,
          anchor_pos inline_comment_lines r1 = Some p1 /\
          anchor_pos inline_comment_lines r2 = Some p2 /\
          pos_le p1 p2).
Proof.
  apply (ranges_run_forward inline_comment_lines inline_comment_tokens).
  - discriminate.
  - repeat constructor; simpl; intuition discriminate.
Defined.

(** * Further properties of the decoration *)

(** ** When the loop raises *)

(** X1.  The loop over the tokens raises exactly when there is no text
    segment and at least one token; the exception is then the [TypeError]
    of reading [startText.text]. *)
Theorem decorate_raises_iff (texts : list Text) (tokens : list token) :
  ((exists e, decorate texts tokens = Throw e) <->
   (texts = [] /\ tokens <> [])) /\
  (forall e, decorate texts tokens = Throw e ->
             e = TypeError "Cannot read property 'text' of undefined").
Proof.
  destruct texts as [|t rest].
  - destruct tokens as [|tok tokens]; simpl.
    + split.
      * split; [intros [e H]; discriminate|intros [_ H]; contradiction].
      * intros e H. discriminate.
    + split.
      * split; [intros _; split; [reflexivity|discriminate]|].
        intros _. eexists. reflexivity.
      * intros e H. unfold decorate, decorate_vars in H. simpl in H.
        injection H as <-. reflexivity.
  - destruct (decorate_vars_run t rest tokens) as (v & _ & _ & Hrun & _).
    rewrite (decorate_of_vars _ _ _ Hrun).
    split.
    + split; [intros [e H]; discriminate|intros [H _]; discriminate].
    + intros e H. discriminate.
Qed.

(** ** decorateNode as a whole *)

(** X2.  [decorateNode] returns [undefined] exactly for a node that is not
    a code block, whatever the tokenizer would do; for a code block with
    at least one text segment it returns the tokenizer's exception when
    there is one, and otherwise an array with one range for each
    structured token of the tokenizer's stream for the joined text and the
    looked-up grammar. *)
Theorem decorateNode_outcome
    (grammar : Type) (languages : string -> option grammar)
    (tokenize : string -> option grammar -> result (list token))
    (node : Node) :
  node_texts node <> [] ->
  (node_type node <> "code" ->
   decorateNode grammar languages tokenize node = Ok None) /\
  (node_type node = "code" ->
   decorateNode grammar languages tokenize node <> Ok None /\
   match tokenize (joined (node_texts node))
                  (languages (property_key (node_language node))) with
   | Throw e => decorateNode grammar languages tokenize node = Throw e
   | Ok tokens =>
       exists ds,
         decorateNode grammar languages tokenize node = Ok (Some ds) /\
         decorate (node_texts node) tokens = Ok ds /\
         map marks ds = type_marks tokens
   end).
Proof.
  intros Hne. unfold decorateNode. split.
  - intros Hty. apply String.eqb_neq in Hty. rewrite Hty. reflexivity.
  - intros Hty. rewrite Hty. simpl negb. cbv iota zeta.
    fold (joined (node_texts node)).
    destruct (tokenize (joined (node_texts node))
                (languages (property_key (node_language node))))
      as [tokens|e]; simpl bind.
    + destruct (node_texts node) as [|t rest]; [contradiction|].
      destruct (decorate_vars_run t rest tokens)
        as (v & _ & _ & Hrun & _ & _ & _ & Hm).
      rewrite (decorate_of_vars _ _ _ Hrun). simpl.
      split; [discriminate|].
      exists (v_decorations v). auto.
    + split; [discriminate|reflexivity].
Qed.

Lemma decorateNode_outcome_witness :
  decorateNode unit (fun _ => None) lenient_tokenize
    (mkNode "paragraph" None [seg "0" "x = 1"]) = Ok None.
Proof.
  apply (decorateNode_outcome unit (fun _ => None) lenient_tokenize
           (mkNode "paragraph" None [seg "0" "x = 1"])).
  - discriminate.
  - discriminate.
Defined.

(** ** One segment *)

Lemma for_of_single t tokens :
  forall st so eo start decs,
    exists st' so' start',
      for_of tokens (mkVars [] st (Some t) so eo start decs)
      = Ok (mkVars [] st' (Some t) so'
                   (eo + tokens_length tokens) start'
                   (decs ++ single_ranges (key t) eo tokens)).
Proof.
  induction tokens as [|tok tokens IH]; intros st so eo start decs.
  - exists st, so, start. simpl. rewrite Z.add_0_r, app_nil_r. reflexivity.
  - assert (Hsum : forall L, eo + (L + tokens_length tokens)
                             = eo + L + tokens_length tokens)
      by (intros; lia).
    destruct tok as [s|type c]; cbn [for_of]; unfold for_body;
      cbn [v_endText v_texts v_endOffset v_decorations v_start];
      rewrite advance_stay by (right; reflexivity);
      cbn [w_texts w_endText w_endOffset bind].
    + destruct (IH (Some t) eo (eo + token_length (getContent (TString s)))
                  (start + token_length (getContent (TString s))) decs)
        as (st' & so' & start' & H).
      exists st', so', start'. rewrite H.
      unfold tokens_length. cbn [fold_right single_ranges].
      fold (tokens_length tokens). rewrite Hsum. reflexivity.
    + destruct (IH (Some t) eo
                  (eo + token_length (getContent (TToken type c)))
                  (start + token_length (getContent (TToken type c)))
                  (decs ++ [mkRange (key t) eo (key t)
                              (eo + token_length (getContent (TToken type c)))
                              [mkMark type]])%list)
        as (st' & so' & start' & H).
      exists st', so', start'. rewrite H.
      unfold tokens_length. cbn [fold_right single_ranges].
      fold (tokens_length tokens). rewrite Hsum, <- app_assoc. reflexivity.
Qed.

(** X3.  In a code block of one text segment every structured token gets
    the range from the sum of the lengths of the tokens before it to that
    sum plus its own length, both in the segment, whatever the stream and
    however long the text. *)
Theorem single_segment_exact (t : Text) (tokens : list token) :
  decorate [t] tokens = Ok (single_ranges (key t) 0 tokens).
Proof.
  unfold decorate, decorate_vars, init_vars. simpl shift. cbv iota.
  destruct (for_of_single t tokens (Some t) 0 0 0 [])
    as (st' & so' & start' & H).
  rewrite H. reflexivity.
Qed.

(** ** Ranges and tokens side by side *)

Lemma firstn_prefix {A} (pre rest : list A) :
  firstn (List.length pre) (pre ++ rest) = pre.
Proof. induction pre as [|a pre IH]; simpl; [destruct rest|]; congruence. Qed.

Lemma nth_middle_text pre cur rest d :
  nth (List.length pre) (pre ++ cur :: rest) d = cur :> Text.
Proof. induction pre as [|a pre IH]; simpl; auto. Qed.

Lemma abs_offset_located all v pre cur :
  located all v pre cur ->
  abs_offset all (List.length pre, v_endOffset v)
  = sum_len pre + v_endOffset v.
Proof.
  intros H. unfold abs_offset. simpl.
  rewrite (loc_split _ _ _ _ H), firstn_prefix. reflexivity.
Qed.

Lemma split_unique {A} (pre pre' : list A) cur cur' rest rest' :
  (pre ++ cur :: rest = pre' ++ cur' :: rest')%list ->
  List.length rest = List.length rest' ->
  pre = pre' /\ cur = cur' /\ rest = rest'.
Proof.
  revert pre'. induction pre as [|a pre IH]; intros [|a' pre'] H Hl;
    simpl in H; injection H as -> H.
  - auto.
  - subst rest. rewrite length_app in Hl. simpl in Hl. lia.
  - subst rest'. rewrite length_app in Hl. simpl in Hl. lia.
  - destruct (IH pre' H Hl) as (-> & -> & ->). auto.
Qed.

Lemma located_unique all v pre cur pre' cur' :
  located all v pre cur -> located all v pre' cur' ->
  pre = pre' /\ cur = cur'.
Proof.
  intros H H'. pose proof (loc_split _ _ _ _ H) as Hs.
  rewrite (loc_split _ _ _ _ H') in Hs.
  destruct (split_unique _ _ _ _ _ _ Hs eq_refl) as (-> & -> & _). auto.
Qed.

Lemma tokens_length_cons tok tokens :
  tokens_length (tok :: tokens)
  = token_length (getContent tok) + tokens_length tokens.
Proof. reflexivity. Qed.

Lemma tokens_length_nonneg tokens : 0 <= tokens_length tokens.
Proof.
  unfold tokens_length. induction tokens as [|tok tokens IH]; simpl; [lia|].
  pose proof (token_length_nonneg (getContent tok)). lia.
Qed.

Section Trace.

Variable all : list Text.
Variable Q : Z -> pos -> Prop.
Variable I : list token -> vars -> list Text -> Text -> Prop.

Hypothesis I_Q :
  forall toks v pre cur,
    located all v pre cur -> I toks v pre cur ->
    Q (v_start v) (List.length pre, v_endOffset v).

Hypothesis I_step :
  forall tok toks v pre cur v' pre' cur',
    located all v pre cur -> I (tok :: toks) v pre cur ->
    for_body tok v = Ok v' ->
    located all v' pre' cur' -> I toks v' pre' cur'.

(** An invariant of the cursor that every token preserves holds at both
    ends of every range. *)
Lemma for_of_aligned tokens :
  forall v pre cur,
    located all v pre cur -> I tokens v pre cur ->
    exists v' pre' cur' ds,
      for_of tokens v = Ok v' /\
      located all v' pre' cur' /\
      I [] v' pre' cur' /\
      v_decorations v' = (v_decorations v ++ ds)%list /\
      aligned all Q (v_start v) tokens ds.
Proof.
  induction tokens as [|tok tokens IH]; intros v pre cur Hloc HI.
  - exists v, pre, cur, []. simpl. rewrite app_nil_r.
    repeat (split; [solve [auto]|]). constructor.
  - destruct (for_body_step all v pre cur tok Hloc)
      as (v1 & pre1 & cur1 & Hbody & Hloc1 & Hstart1 & _ & Hdec1).
    pose proof (I_step _ _ _ _ _ _ _ _ Hloc HI Hbody Hloc1) as HI1.
    destruct (IH v1 pre1 cur1 Hloc1 HI1)
      as (v' & pre' & cur' & ds & Hrun & Hloc' & HI' & Hdec' & Hal).
    exists v', pre', cur', (emitted tok cur v cur1 v1 ++ ds)%list.
    cbn [for_of]. rewrite Hbody. cbn [bind].
    split; [exact Hrun|]. split; [exact Hloc'|]. split; [exact HI'|].
    split; [rewrite Hdec', Hdec1, app_assoc; reflexivity|].
    rewrite Hstart1 in Hal.
    destruct tok as [s|type c]; cbn [emitted app].
    + constructor. exact Hal.
    + apply aligned_token
        with (i := List.length pre) (j := List.length pre1);
        cbn [anchorKey anchorOffset focusKey focusOffset].
      * rewrite (loc_split _ _ _ _ Hloc). apply at_index_middle.
      * rewrite (loc_split _ _ _ _ Hloc1). apply at_index_middle.
      * apply (I_Q _ _ _ _ Hloc HI).
      * rewrite <- Hstart1. apply (I_Q _ _ _ _ Hloc1 HI1).
      * exact Hal.
Qed.

End Trace.

(** With distinct keys the positions of a range are the ones its keys
    name. *)
Lemma aligned_spans all Q s tokens ds :
  NoDup (map key all) ->
  aligned all Q s tokens ds ->
  Forall2
    (fun r span =>
       exists i j,
         anchor_pos all r = Some (i, anchorOffset r) /\
         focus_pos all r = Some (j, focusOffset r) /\
         Q (fst span) (i, anchorOffset r) /\
         Q (snd span) (j, focusOffset r))
    ds (length_spans s tokens).
Proof.
  intros Hnd. induction 1 as [s|s str toks ds _ IH
                              |s type c toks r ds i j Hi Hj Ha Hf _ IH].
  - constructor.
  - exact IH.
  - cbn [length_spans]. constructor; [|exact IH].
    exists i, j. unfold anchor_pos, focus_pos.
    rewrite (key_index_at _ Hnd _ _ Hi), (key_index_at _ Hnd _ _ Hj).
    auto.
Qed.

Lemma decorate_aligned t rest tokens (Q : Z -> pos -> Prop)
    (I : list token -> vars -> list Text -> Text -> Prop) :
  (forall toks v pre cur,
      located (t :: rest) v pre cur -> I toks v pre cur ->
      Q (v_start v) (List.length pre, v_endOffset v)) ->
  (forall tok toks v pre cur v' pre' cur',
      located (t :: rest) v pre cur -> I (tok :: toks) v pre cur ->
      for_body tok v = Ok v' ->
      located (t :: rest) v' pre' cur' -> I toks v' pre' cur') ->
  I tokens (init_vars (t :: rest)) [] t ->
  exists ds,
    decorate (t :: rest) tokens = Ok ds /\
    aligned (t :: rest) Q 0 tokens ds.
Proof.
  intros HQ Hstep Hinit.
  assert (Hloc : located (t :: rest) (init_vars (t :: rest)) [] t).
  { pose proof (strlen_nonneg (text t)).
    constructor; simpl; auto; lia. }
  destruct (for_of_aligned (t :: rest) Q I HQ Hstep tokens _ _ _ Hloc Hinit)
    as (v & pre & cur & ds & Hrun & _ & _ & Hdec & Hal).
  exists ds. simpl in Hdec, Hal. subst ds.
  split; [exact (decorate_of_vars _ _ _ Hrun)|exact Hal].
Qed.

(** ** Ranges never stop short *)

(** X4.  For a segment list of length at least one with distinct keys and
    any token stream, no range starts or ends before its token does: as
    character offsets in the code block, the anchor is at or after the
    value of [start] at the token and the focus at or after the value of
    [end]. *)
Theorem ranges_never_short (texts : list Text) (tokens : list token) :
  texts <> [] ->
  NoDup (map key texts) ->
  exists ds,
    decorate texts tokens = Ok ds /\
    Forall2
      (fun r span =>
         exists a f,
           abs_anchor texts r = Some a /\ abs_focus texts r = Some f /\
           fst span <= a /\ snd span <= f)
      ds (length_spans 0 tokens).
Proof.
  intros Hne Hnd. destruct texts as [|t rest]; [contradiction|].
  destruct (decorate_aligned t rest tokens
              (fun s p => s <= abs_offset (t :: rest) p)
              (fun _ _ _ _ => True))
    as (ds & Hdec & Hal); auto.
  { intros toks v pre cur Hloc _.
    rewrite (abs_offset_located _ _ _ _ Hloc). apply (loc_sum _ _ _ _ Hloc). }
  exists ds. split; [exact Hdec|].
  eapply Forall2_impl; [|exact (aligned_spans _ _ _ _ _ Hnd Hal)].
  intros r span (i & j & Hi & Hj & Ha & Hf).
  exists (abs_offset (t :: rest) (i, anchorOffset r)),
         (abs_offset (t :: rest) (j, focusOffset r)).
  unfold abs_anchor, abs_focus. rewrite Hi, Hj. auto.
Qed.

Lemma ranges_never_short_witness :
  exists ds,
    decorate comment_lines comment_tokens = Ok ds /\
    Forall2
      (fun r span =>
         exists a f,
           abs_anchor comment_lines r = Some a /\
           abs_focus comment_lines r = Some f /\
           fst span <= a /\ snd span <= f)
      ds (length_spans 0 comment_tokens).
Proof.
  apply (ranges_never_short comment_lines comment_tokens).
  - discriminate.
  - repeat constructor; simpl; intuition discriminate.
Defined.

(** ** Code blocks of one or two segments *)

Lemma for_body_start tok v v' :
  for_body tok v = Ok v' ->
  v_start v' = v_start v + token_length (getContent tok).
Proof.
  unfold for_body. destruct (v_endText v); [|discriminate].
  cbv zeta. intros H. injection H as <-. reflexivity.
Qed.

Lemma advance_cons length t rest endText available remaining endOffset :
  advance length (t :: rest) endText available remaining endOffset
  = if available <? remaining
    then advance length rest t (strlen (text t))
                 (length - available) (length - available)
    else mkW (t :: rest) endText available remaining endOffset.
Proof. reflexivity. Qed.

(** Where at most one segment is queued, a token moves the cursor by
    exactly its length. *)
Lemma for_body_exact_short all v pre cur tok v' pre' cur' :
  located all v pre cur ->
  (List.length (v_texts v) <= 1)%nat ->
  v_start v = sum_len pre + v_endOffset v ->
  for_body tok v = Ok v' ->
  located all v' pre' cur' ->
  v_start v' = sum_len pre' + v_endOffset v'.
Proof.
  intros Hloc Hshort Hexact Hbody Hloc'.
  pose proof (for_body_start _ _ _ Hbody) as Hstart.
  pose proof (loc_split _ _ _ _ Hloc) as Hs.
  pose proof (loc_split _ _ _ _ Hloc') as Hs'.
  unfold for_body in Hbody. rewrite (loc_end _ _ _ _ Hloc) in Hbody.
  cbv zeta in Hbody.
  set (L := token_length (getContent tok)) in *.
  destruct (v_texts v) as [|t [|t2 rest]] eqn:Htexts;
    [| |simpl in Hshort; lia].
  - rewrite advance_stay in Hbody by (right; reflexivity).
    injection Hbody as <-. simpl in *.
    rewrite Hs in Hs'.
    destruct (split_unique _ _ _ _ _ _ Hs' eq_refl) as (<- & _ & _). lia.
  - rewrite advance_cons in Hbody.
    destruct (strlen (text cur) - v_endOffset v <? L).
    + rewrite advance_stay in Hbody by (right; reflexivity).
      injection Hbody as <-. simpl in *.
      rewrite Hs in Hs'.
      change (pre ++ cur :: [t])%list
        with (pre ++ cur :: [t] ++ [])%list in Hs'.
      assert (Hs2 : ((pre ++ [cur]) ++ t :: [] = pre' ++ cur' :: [])%list).
      { rewrite <- app_assoc. exact Hs'. }
      destruct (split_unique _ _ _ _ _ _ Hs2 eq_refl) as (<- & _ & _).
      rewrite sum_len_app. unfold sum_len at 2. simpl. lia.
    + injection Hbody as <-. simpl in *.
      rewrite Hs in Hs'.
      destruct (split_unique _ _ _ _ _ _ Hs' eq_refl) as (<- & _ & _). lia.
Qed.

Lemma located_queue all v pre cur :
  located all v pre cur ->
  List.length all = (List.length pre + 1 + List.length (v_texts v))%nat.
Proof.
  intros H. rewrite (loc_split _ _ _ _ H), length_app. simpl. lia.
Qed.

(** X5.  In a code block of one or two text segments with distinct keys,
    every range sits exactly where its token does, whatever the stream:
    as character offsets in the code block, its anchor is the value of
    [start] at its token and its focus the value of [end]. *)
Theorem two_segments_exact (texts : list Text) (tokens : list token) :
  texts <> [] ->
  (List.length texts <= 2)%nat ->
  NoDup (map key texts) ->
  exists ds,
    decorate texts tokens = Ok ds /\
    map (fun r => (abs_anchor texts r, abs_focus texts r)) ds
    = map (fun span => (Some (fst span), Some (snd span)))
          (length_spans 0 tokens).
Proof.
  intros Hne Hlen Hnd. destruct texts as [|t rest]; [contradiction|].
  destruct (decorate_aligned t rest tokens
              (fun s p => s = abs_offset (t :: rest) p)
              (fun _ v pre _ => v_start v = sum_len pre + v_endOffset v))
    as (ds & Hdec & Hal).
  { intros toks v pre cur Hloc HI.
    rewrite (abs_offset_located _ _ _ _ Hloc). exact HI. }
  { intros tok toks v pre cur v' pre' cur' Hloc HI Hbody Hloc'.
    apply (for_body_exact_short _ _ _ _ tok _ _ cur' Hloc); auto.
    pose proof (located_queue _ _ _ _ Hloc). lia. }
  { reflexivity. }
  exists ds. split; [exact Hdec|].
  pose proof (aligned_spans _ _ _ _ _ Hnd Hal) as HF.
  clear Hdec Hal.
  induction HF as [|r span ds spans (i & j & Hi & Hj & Ha & Hf) _ IH];
    [reflexivity|].
  simpl. rewrite IH. unfold abs_anchor, abs_focus.
  rewrite Hi, Hj. simpl. rewrite <- Ha, <- Hf. reflexivity.
Qed.

Lemma two_segments_exact_witness :
  exists ds,
    decorate [seg "0" "ab"; seg "1" "cd"]
             [TString "a"; TToken "tag" (CString ("b" ++ nl ++ "c"));
              TString "d"] = Ok ds /\
    map (fun r => (abs_anchor [seg "0" "ab"; seg "1" "cd"] r,
                   abs_focus [seg "0" "ab"; seg "1" "cd"] r)) ds
    = map (fun span => (Some (fst span), Some (snd span)))
          (length_spans 0
             [TString "a"; TToken "tag" (CString ("b" ++ nl ++ "c"));
              TString "d"]).
Proof.
  apply (two_segments_exact
           [seg "0" "ab"; seg "1" "cd"]
           [TString "a"; TToken "tag" (CString ("b" ++ nl ++ "c"));
            TString "d"]).
  - discriminate.
  - simpl. lia.
  - repeat constructor; simpl; intuition discriminate.
Defined.

(** X6.  In a code block of one or two text segments with distinct keys
    and a token stream no longer than the text, every range has both
    offsets inside the text of their segments. *)
Theorem two_segments_in_bounds (texts : list Text) (tokens : list token) :
  texts <> [] ->
  (List.length texts <= 2)%nat ->
  NoDup (map key texts) ->
  tokens_length tokens <= sum_len texts ->
  exists ds,
    decorate texts tokens = Ok ds /\
    forallb (in_bounds texts) ds = true.
Proof.
  intros Hne Hlen Hnd Hfit. destruct texts as [|t rest]; [contradiction|].
  destruct (decorate_aligned t rest tokens
              (fun s p =>
                 0 <= snd p <= strlen (text (nth (fst p) (t :: rest) (mkText "" ""))))
              (fun toks v pre _ =>
                 v_start v = sum_len pre + v_endOffset v /\
                 v_start v + tokens_length toks <= sum_len (t :: rest)))
    as (ds & Hdec & Hal).
  { intros toks v pre cur Hloc [Hexact Hbudget]. cbn [fst snd].
    rewrite (loc_split _ _ _ _ Hloc) at 1. rewrite nth_middle_text.
    split; [apply (loc_low _ _ _ _ Hloc)|].
    destruct (loc_high _ _ _ _ Hloc) as [H|Hnil]; [exact H|].
    pose proof (tokens_length_nonneg toks).
    rewrite (loc_split _ _ _ _ Hloc), Hnil, sum_len_app in Hbudget.
    unfold sum_len at 2 in Hbudget. simpl in Hbudget. lia. }
  { intros tok toks v pre cur v' pre' cur' Hloc [Hexact Hbudget] Hbody Hloc'.
    split.
    - apply (for_body_exact_short _ _ _ _ tok _ _ cur' Hloc); auto.
      pose proof (located_queue _ _ _ _ Hloc). lia.
    - rewrite (for_body_start _ _ _ Hbody).
      rewrite tokens_length_cons in Hbudget. lia. }
  { split; [reflexivity|]. simpl. exact Hfit. }
  exists ds. split; [exact Hdec|].
  pose proof (aligned_spans _ _ _ _ _ Hnd Hal) as HF.
  clear Hdec Hal.
  induction HF as [|r span ds spans (i & j & Hi & Hj & Ha & Hf) _ IH];
    [reflexivity|].
  simpl. rewrite IH, andb_true_r. unfold in_bounds.
  rewrite Hi, Hj. cbn [fst snd] in Ha, Hf. cbv iota beta.
  destruct Ha as [Ha1 Ha2], Hf as [Hf1 Hf2].
  apply Z.leb_le in Ha1, Ha2, Hf1, Hf2.
  rewrite Ha1, Ha2, Hf1, Hf2. reflexivity.
Qed.

Lemma two_segments_in_bounds_witness :
  exists ds,
    decorate [seg "0" "ab"; seg "1" "cd"]
             [TString "a"; TToken "tag" (CString ("b" ++ nl ++ "c"));
              TString "d"] = Ok ds /\
    forallb (in_bounds [seg "0" "ab"; seg "1" "cd"]) ds = true.
Proof.
  apply (two_segments_in_bounds
           [seg "0" "ab"; seg "1" "cd"]
           [TString "a"; TToken "tag" (CString ("b" ++ nl ++ "c"));
            TString "d"]).
  - discriminate.
  - simpl. lia.
  - repeat constructor; simpl; intuition discriminate.
  - vm_compute. discriminate.
Defined.

(** ** Streams in two parts *)

Lemma for_of_append toks1 toks2 v :
  for_of (toks1 ++ toks2)%list v = bind (for_of toks1 v) (for_of toks2).
Proof.
  revert v. induction toks1 as [|x toks1 IH]; intros v; simpl.
  - reflexivity.
  - destruct (for_body x v) as [v1|e]; simpl; [apply IH|reflexivity].
Qed.

(** X7.  The ranges of a stream do not depend on the tokens that follow:
    for a segment list of length at least one, the ranges of a stream
    [toks1 ++ toks2] are the ranges of [toks1] followed by one range for
    each structured token of [toks2]. *)
Theorem ranges_of_prefix_kept
    (texts : list Text) (toks1 toks2 : list token) :
  texts <> [] ->
  exists ds1 ds2,
    decorate texts toks1 = Ok ds1 /\
    decorate texts (toks1 ++ toks2)%list = Ok (ds1 ++ ds2)%list /\
    map marks ds2 = type_marks toks2.
Proof.
  intros Hne. destruct texts as [|t rest]; [contradiction|].
  destruct (decorate_vars_run t rest toks1)
    as (v1 & pre1 & cur1 & Hrun1 & Hloc1 & _).
  destruct (for_of_run (t :: rest) toks2 v1 pre1 cur1 Hloc1)
    as (v2 & pre2 & cur2 & ds2 & Hrun2 & _ & _ & Hdec2 & _ & Hm).
  exists (v_decorations v1), ds2.
  split; [exact (decorate_of_vars _ _ _ Hrun1)|]. split; [|exact Hm].
  rewrite <- Hdec2. apply decorate_of_vars.
  unfold decorate_vars in *. rewrite for_of_append, Hrun1. exact Hrun2.
Qed.

Lemma ranges_of_prefix_kept_witness :
  exists ds1 ds2,
    decorate inline_comment_lines [TString "a"] = Ok ds1 /\
    decorate inline_comment_lines
             ([TString "a"] ++
              [TToken "comment" (CString ("/*" ++ nl ++ "x" ++ nl ++ "*/"));
               TString "bcd"])%list
    = Ok (ds1 ++ ds2)%list /\
    map marks ds2
    = type_marks
        [TToken "comment" (CString ("/*" ++ nl ++ "x" ++ nl ++ "*/"));
         TString "bcd"].
Proof.
  apply (ranges_of_prefix_kept inline_comment_lines [TString "a"]
           [TToken "comment" (CString ("/*" ++ nl ++ "x" ++ nl ++ "*/"));
            TString "bcd"]).
  discriminate.
Defined.

(** ** Collapsed ranges *)

(** A token either leaves the cursor in its segment, [length] further on,
    or moves it to a later segment. *)
Lemma for_body_move all v pre cur tok v' pre' cur' :
  located all v pre cur ->
  for_body tok v = Ok v' ->
  located all v' pre' cur' ->
  (pre' = pre /\ cur' = cur /\
   v_endOffset v' = v_endOffset v + token_length (getContent tok))
  \/ ((List.length pre < List.length pre')%nat /\
      0 < token_length (getContent tok)).
Proof.
  intros Hloc Hbody Hloc'.
  pose proof (loc_split _ _ _ _ Hloc) as Hs.
  pose proof (loc_split _ _ _ _ Hloc') as Hs'.
  pose proof (token_length_nonneg (getContent tok)) as HL.
  unfold for_body in Hbody. rewrite (loc_end _ _ _ _ Hloc) in Hbody.
  cbv zeta in Hbody.
  set (L := token_length (getContent tok)) in *.
  set (so := v_endOffset v) in *.
  assert (Hstay :
    Ok (mkVars (v_texts v) (Some cur) (Some cur) so (so + L)
               (v_start v + L)
               match tok with
               | TString _ => v_decorations v
               | TToken type _ =>
                   (v_decorations v ++
                    [mkRange (key cur) so (key cur) (so + L)
                             [mkMark type]])%list
               end) = Ok v' ->
    pre' = pre /\ cur' = cur /\ v_endOffset v' = so + L).
  { intros H. injection H as <-. simpl in Hs'. rewrite Hs in Hs'.
    destruct (split_unique _ _ _ _ _ _ Hs' eq_refl) as (<- & <- & _).
    auto. }
  destruct (v_texts v) as [|t rest] eqn:Htexts.
  - rewrite advance_stay in Hbody by (right; reflexivity).
    left. apply Hstay. exact Hbody.
  - rewrite advance_cons in Hbody.
    destruct (Z.ltb_spec (strlen (text cur) - so) L) as [Hlt|Hge].
    + right.
      destruct (loc_high _ _ _ _ Hloc) as [Hhigh|Hnil];
        [|rewrite Htexts in Hnil; discriminate].
      fold so in Hhigh. split; [|lia].
      destruct (advance_steady L rest (pre ++ [cur])%list t
                  (L - (strlen (text cur) - so)))
        as (p & Hsp & Hmove & _); [lia|].
      injection Hbody as <-. simpl in Hs'.
      rewrite <- app_assoc in Hsp. simpl in Hsp.
      rewrite Hs, Hsp in Hs'.
      destruct (split_unique _ _ _ _ _ _ Hs' eq_refl) as (<- & _ & _).
      destruct Hmove as [[-> _]|Hm]; rewrite ?length_app in *;
        simpl in *; lia.
    + left. apply Hstay. exact Hbody.
Qed.

Lemma key_distinct_later pre cur pre' cur' rest rest' :
  NoDup (map key (pre ++ cur :: rest)) ->
  (pre ++ cur :: rest = pre' ++ cur' :: rest')%list ->
  (List.length pre < List.length pre')%nat ->
  key cur <> key cur'.
Proof.
  intros Hnd Hs Hlt Hk.
  assert (H1 : at_index (pre ++ cur :: rest) (List.length pre) (key cur))
    by apply at_index_middle.
  assert (H2 : at_index (pre ++ cur :: rest) (List.length pre') (key cur)).
  { rewrite Hs, Hk. apply at_index_middle. }
  pose proof (key_index_at _ Hnd _ _ H1) as E1.
  pose proof (key_index_at _ Hnd _ _ H2) as E2.
  rewrite E1 in E2. injection E2 as E2. lia.
Qed.

(** X8.  A structured token anywhere in a stream, over a segment list of
    length at least one with distinct keys: its range is collapsed, anchor
    and focus the same point, exactly when the token has length zero,
    and the range is emitted all the same. *)
Theorem collapsed_iff_zero_length
    (texts : list Text) (toks : list token) (type : string) (c : tcontent)
    (toks' : list token) :
  texts <> [] ->
  NoDup (map key texts) ->
  exists ds r ds',
    decorate texts toks = Ok ds /\
    decorate texts (toks ++ TToken type c :: toks')%list
    = Ok (ds ++ r :: ds')%list /\
    marks r = [mkMark type] /\
    (collapsed r <-> token_length (getContent (TToken type c)) = 0).
Proof.
  intros Hne Hnd. destruct texts as [|t rest]; [contradiction|].
  destruct (decorate_vars_run t rest toks)
    as (v1 & pre1 & cur1 & Hrun1 & Hloc1 & _).
  destruct (for_body_step _ _ _ _ (TToken type c) Hloc1)
    as (v2 & pre2 & cur2 & Hbody & Hloc2 & _ & _ & Hdec2).
  destruct (for_of_run (t :: rest) toks' v2 pre2 cur2 Hloc2)
    as (v3 & pre3 & cur3 & ds' & Hrun3 & _ & _ & Hdec3 & _).
  exists (v_decorations v1),
         (mkRange (key cur1) (v_endOffset v1) (key cur2) (v_endOffset v2)
                  [mkMark type]), ds'.
  split; [exact (decorate_of_vars _ _ _ Hrun1)|].
  split.
  { replace (v_decorations v1 ++ _ :: ds')%list with (v_decorations v3).
    - apply decorate_of_vars. unfold decorate_vars in *.
      rewrite for_of_append, Hrun1. cbn [bind for_of]. rewrite Hbody.
      exact Hrun3.
    - rewrite Hdec3, Hdec2. cbn [emitted]. rewrite <- app_assoc.
      reflexivity. }
  split; [reflexivity|].
  unfold collapsed. cbn [anchorKey anchorOffset focusKey focusOffset].
  destruct (for_body_move _ _ _ _ _ _ _ _ Hloc1 Hbody Hloc2)
    as [(-> & -> & Ho)|[Hlt Hpos]].
  - rewrite Ho. split; [intros [_ H]; lia|intros H; split; [reflexivity|lia]].
  - split; [|lia]. intros [Hk _]. exfalso.
    pose proof (loc_split _ _ _ _ Hloc1) as Hs1.
    pose proof (loc_split _ _ _ _ Hloc2) as Hs2.
    rewrite Hs1 in Hnd, Hs2.
    exact (key_distinct_later _ _ _ _ _ _ Hnd Hs2 Hlt Hk).
Qed.

Lemma collapsed_iff_zero_length_witness :
  exists ds r ds',
    decorate [seg "0" "ab"; seg "1" "cd"] [TString "ab"] = Ok ds /\
    decorate [seg "0" "ab"; seg "1" "cd"]
             ([TString "ab"] ++ TToken "eol" (CString nl) :: [TString "cd"])%list
    = Ok (ds ++ r :: ds')%list /\
    marks r = [mkMark "eol"] /\
    (collapsed r <-> token_length (getContent (TToken "eol" (CString nl))) = 0).
Proof.
  apply (collapsed_iff_zero_length
           [seg "0" "ab"; seg "1" "cd"] [TString "ab"] "eol" (CString nl)
           [TString "cd"]).
  - discriminate.
  - repeat constructor; simpl; intuition discriminate.
Defined.

(** ** Lengths of matching streams *)

Lemma append_assoc (a b c : string) : (a ++ b) ++ c = a ++ b ++ c.
Proof. induction a as [|x a IH]; simpl; congruence. Qed.

Lemma append_nil_r (a : string) : a ++ "" = a.
Proof. induction a as [|x a IH]; simpl; congruence. Qed.

Lemma strlen_append a b : strlen (a ++ b) = strlen a + strlen b.
Proof.
  unfold strlen. induction a as [|x a IH]; simpl String.length; [lia|].
  rewrite !Nat2Z.inj_succ. lia.
Qed.

Lemma strlen_zero a : strlen a = 0 -> a = "".
Proof. destruct a; [reflexivity|]. unfold strlen. simpl. lia. Qed.

Lemma count_char_append c a b :
  count_char c (a ++ b) = count_char c a + count_char c b.
Proof. induction a as [|x a IH]; simpl; [reflexivity|]. rewrite IH. lia. Qed.

Lemma token_length_append a b :
  token_length (a ++ b) = token_length a + token_length b.
Proof.
  rewrite !token_length_count, strlen_append, count_char_append. lia.
Qed.

Lemma tokens_length_concat tokens :
  tokens_length tokens = token_length (concat_strings (map getContent tokens)).
Proof.
  induction tokens as [|tok tokens IH]; [reflexivity|].
  rewrite tokens_length_cons, IH. simpl map. simpl concat_strings.
  rewrite token_length_append. reflexivity.
Qed.

Lemma joined_seps t rest : joined (t :: rest) = text t ++ seps rest.
Proof.
  unfold joined, seps. revert t.
  induction rest as [|t' rest IH]; intros t.
  - simpl. rewrite append_nil_r. reflexivity.
  - change (join nl (map text (t :: t' :: rest)))
      with (text t ++ nl ++ join nl (map text (t' :: rest))).
    rewrite IH. reflexivity.
Qed.

Lemma seps_cons t rest : seps (t :: rest) = nl ++ text t ++ seps rest.
Proof. unfold seps. simpl map. simpl concat_strings. reflexivity. Qed.

Lemma token_length_free s : count_char LF s = 0 -> token_length s = strlen s.
Proof. intros H. rewrite token_length_count, H. lia. Qed.

Lemma token_length_nl : token_length nl = 0.
Proof. reflexivity. Qed.

Lemma token_length_seps texts :
  line_feed_free texts -> token_length (seps texts) = sum_len texts.
Proof.
  induction 1 as [|t texts Ht _ IH]; [reflexivity|].
  rewrite seps_cons, !token_length_append, token_length_nl, IH.
  rewrite (token_length_free _ Ht). reflexivity.
Qed.

(** X9.  For segments without line feeds in their texts and a token
    stream whose contents concatenate to the joined text, the lengths the
    loop gives the tokens add up to the total length of the segment
    texts, which is the final value of [start]. *)
Theorem matching_stream_length (texts : list Text) (tokens : list token) :
  texts <> [] ->
  line_feed_free texts ->
  matching texts tokens ->
  tokens_length tokens = sum_len texts /\
  exists v, decorate_vars texts tokens = Ok v /\ v_start v = sum_len texts.
Proof.
  intros Hne Hfree Hmatch. destruct texts as [|t rest]; [contradiction|].
  assert (Hlen : tokens_length tokens = sum_len (t :: rest)).
  { rewrite tokens_length_concat, Hmatch, joined_seps, token_length_append.
    inversion Hfree as [|? ? Ht Hrest]; subst.
    rewrite (token_length_free _ Ht), (token_length_seps _ Hrest).
    reflexivity. }
  split; [exact Hlen|].
  destruct (decorate_vars_run t rest tokens)
    as (v & _ & _ & Hrun & _ & Hstart & _).
  exists v. split; [exact Hrun|]. rewrite Hstart. exact Hlen.
Qed.

Lemma matching_stream_length_witness :
  tokens_length inline_comment_tokens = sum_len inline_comment_lines /\
  exists v,
    decorate_vars inline_comment_lines inline_comment_tokens = Ok v /\
    v_start v = sum_len inline_comment_lines.
Proof.
  apply (matching_stream_length inline_comment_lines inline_comment_tokens).
  - discriminate.
  - repeat constructor.
  - reflexivity.
Defined.

(** ** Streams of tokens with at most one line feed each *)

(** A token read off the front of a text that begins with a stretch [u]
    free of line feeds: the token ends inside [u], or it holds all of [u]
    and the line feed after it. *)
Lemma prefix_cases c R' u T :
  c ++ R' = u ++ T ->
  count_char LF u = 0 ->
  (T = "" \/ exists T', T = nl ++ T') ->
  (exists u2, u = c ++ u2 /\ R' = u2 ++ T)
  \/ (exists c3 T', T = nl ++ T' /\ c = u ++ nl ++ c3 /\ c3 ++ R' = T').
Proof.
  revert c. induction u as [|a u IH]; intros c H Hu HT.
  - simpl in H. destruct c as [|a' c'].
    + left. exists "". simpl in *. auto.
    + right. destruct HT as [->|[T' ->]]; [discriminate|].
      simpl in H. injection H as -> H.
      exists c', T'. auto.
  - simpl in Hu. pose proof (count_char_bounds LF u) as Hb.
    destruct (Ascii.eqb a LF); [lia|].
    destruct c as [|a' c'].
    + left. exists (String a u). simpl in *. auto.
    + simpl in H. injection H as -> H.
      destruct (IH c' H ltac:(lia) HT)
        as [(u2 & -> & ->)|(c3 & T' & -> & -> & <-)].
      * left. exists u2. auto.
      * right. exists c3, (c3 ++ R'). auto.
Qed.

Lemma seps_shape texts : seps texts = "" \/ exists T', seps texts = nl ++ T'.
Proof.
  destruct texts as [|t texts]; [left; reflexivity|right].
  rewrite seps_cons. eauto.
Qed.

Lemma seps_nl texts T' :
  seps texts = nl ++ T' ->
  exists t texts', texts = t :: texts' /\ T' = text t ++ seps texts'.
Proof.
  destruct texts as [|t texts]; [discriminate|].
  rewrite seps_cons. simpl. intros H. injection H as <-. eauto.
Qed.

Lemma sum_len_empties empties :
  Forall (fun e => text e = "") empties -> sum_len empties = 0.
Proof.
  induction 1 as [|e empties He _ IH]; [reflexivity|].
  change (sum_len (e :: empties)) with (strlen (text e) + sum_len empties).
  rewrite He, IH. reflexivity.
Qed.

(** From the end of a segment the loop runs over the empty segments that
    follow without losing count. *)
Lemma advance_empties length empties t after :
  forall e0 o,
    Forall (fun e => text e = "") empties ->
    0 < length ->
    advance length (empties ++ t :: after) e0 0 length o
    = advance length after t (strlen (text t)) length length.
Proof.
  induction empties as [|e empties IH]; intros e0 o Hemp Hpos;
    simpl app; rewrite advance_cons;
    destruct (Z.ltb_spec 0 length); try lia; rewrite Z.sub_0_r.
  - reflexivity.
  - inversion Hemp as [|? ? He Hemp']; subst.
    rewrite He. change (strlen "") with 0. apply IH; assumption.
Qed.

(** What a token makes of the variables, given where the inner loop ends. *)
Lemma step_to all v pre cur tok v' pre' cur' texts' cur'' a r eo'' P :
  located all v pre cur ->
  for_body tok v = Ok v' ->
  located all v' pre' cur' ->
  advance (token_length (getContent tok)) (v_texts v) cur
          (strlen (text cur) - v_endOffset v)
          (token_length (getContent tok))
          (v_endOffset v + token_length (getContent tok))
  = mkW texts' cur'' a r eo'' ->
  all = (P ++ cur'' :: texts')%list ->
  v_texts v' = texts' /\ cur' = cur'' /\ pre' = P /\
  v_endOffset v' = eo'' /\
  v_start v' = v_start v + token_length (getContent tok).
Proof.
  intros Hloc Hbody Hloc' Hadv Hall.
  pose proof (for_body_start _ _ _ Hbody) as Hstart.
  pose proof (loc_split _ _ _ _ Hloc') as Hs'.
  unfold for_body in Hbody. rewrite (loc_end _ _ _ _ Hloc) in Hbody.
  cbv zeta in Hbody. rewrite Hadv in Hbody.
  injection Hbody as <-. simpl in *.
  rewrite Hall in Hs'.
  destruct (split_unique _ _ _ _ _ _ Hs' eq_refl) as (<- & <- & _).
  auto.
Qed.

Lemma count_nl : count_char LF nl = 1.
Proof. reflexivity. Qed.

Lemma strlen_nl : strlen nl = 1.
Proof. reflexivity. Qed.

Lemma line_feed_free_split pre cur texts :
  line_feed_free (pre ++ cur :: texts) ->
  count_char LF (text cur) = 0 /\ line_feed_free texts.
Proof.
  unfold line_feed_free. intros H. apply Forall_app in H.
  destruct H as [_ H]. inversion H; subst. auto.
Qed.

(** A token with at most one line feed, read off the text that remains
    after the cursor, moves the cursor by its length and leaves it in
    front of what remains after the token. *)
Lemma for_body_one_line all v pre cur tok R' v' pre' cur' :
  line_feed_free all ->
  located all v pre cur ->
  count_char LF (getContent tok) <= 1 ->
  remaining_text (v_texts v) cur (v_endOffset v) (getContent tok ++ R') ->
  v_start v = sum_len pre + v_endOffset v ->
  for_body tok v = Ok v' ->
  located all v' pre' cur' ->
  remaining_text (v_texts v') cur' (v_endOffset v') R' /\
  v_start v' = sum_len pre' + v_endOffset v'.
Proof.
  intros Hfree Hloc Hone Hrem Hexact Hbody Hloc'.
  pose proof (loc_split _ _ _ _ Hloc) as Hs.
  pose proof Hfree as Hfree'. rewrite Hs in Hfree'.
  apply line_feed_free_split in Hfree'. destruct Hfree' as [Hcur Htexts].
  set (c := getContent tok) in *.
  pose proof (token_length_count c) as HL.
  set (L := token_length c) in *.
  set (eo := v_endOffset v) in *.
  pose proof (count_char_bounds LF c) as Hcb.
  destruct Hrem as [(done & u & Htext & Hdone & HR)
                   |(empties & t & after & Heo & Htx & Hemp & HR)].
  - (* the cursor is inside its segment or at its end, nothing skipped *)
    assert (Hlen : strlen (text cur) = eo + strlen u)
      by (rewrite Htext, strlen_append; lia).
    assert (Hu : count_char LF u = 0).
    { rewrite Htext, count_char_append in Hcur.
      pose proof (count_char_bounds LF done).
      pose proof (count_char_bounds LF u). lia. }
    destruct (prefix_cases c R' u (seps (v_texts v)) HR Hu
                (seps_shape _))
      as [(u2 & Hu2 & HR2)|(c3 & T' & HT & Hc & HR3)].
    + (* the token ends inside the segment *)
      assert (Hc0 : count_char LF c = 0).
      { rewrite Hu2, count_char_append in Hu.
        pose proof (count_char_bounds LF u2). lia. }
      assert (Hu2len : strlen u = strlen c + strlen u2)
        by (rewrite Hu2, strlen_append; reflexivity).
      pose proof (strlen_nonneg u2).
      destruct (step_to all v pre cur tok v' pre' cur'
                  (v_texts v) cur (strlen (text cur) - eo) L (eo + L) pre
                  Hloc Hbody Hloc')
        as (Htx' & -> & -> & Ho & Hst).
      { apply advance_stay. left. fold c L eo. lia. }
      { exact Hs. }
      rewrite Htx', Ho. split; [|fold c L in Hst; lia].
      left. exists (done ++ c), u2.
      split; [rewrite Htext, Hu2, append_assoc; reflexivity|].
      split; [rewrite strlen_append; lia|exact HR2].
    + (* the token runs over the separator into the next segment *)
      destruct (seps_nl _ _ HT) as (t' & texts' & Htx & HT').
      rewrite Htx in Htexts. rewrite HT' in HR3. clear HT'.
      pose proof (Forall_inv Htexts) as Ht'. cbv beta in Ht'.
      assert (Hc3 : count_char LF c3 = 0).
      { rewrite Hc, !count_char_append, count_nl in Hone.
        pose proof (count_char_bounds LF c3). lia. }
      destruct (prefix_cases c3 R' (text t') (seps texts') HR3 Ht'
                  (seps_shape _))
        as [(u3 & Hu3 & HR4)|(c4 & T4 & _ & Hc4 & _)].
      2:{ rewrite Hc4, !count_char_append, count_nl in Hc3.
          pose proof (count_char_bounds LF c4). lia. }
      assert (HLval : L = strlen u + strlen c3).
      { rewrite HL, Hc, !strlen_append, !count_char_append,
          count_nl, strlen_nl. lia. }
      assert (Ht'len : strlen (text t') = strlen c3 + strlen u3)
        by (rewrite Hu3, strlen_append; reflexivity).
      pose proof (strlen_nonneg u3). pose proof (strlen_nonneg c3).
      destruct (Z.eq_dec (strlen c3) 0) as [Hz|Hnz].
      * (* it ends with the separator: the cursor stays at the end *)
        apply strlen_zero in Hz. subst c3. simpl in Hu3.
        change (strlen "") with 0 in *.
        destruct (step_to all v pre cur tok v' pre' cur'
                    (v_texts v) cur (strlen (text cur) - eo) L (eo + L) pre
                    Hloc Hbody Hloc')
          as (Htx' & -> & -> & Ho & Hst).
        { apply advance_stay. left. fold c L eo. lia. }
        { exact Hs. }
        rewrite Htx', Ho. split; [|fold c L in Hst; lia].
        right. exists [], t', texts'.
        split; [lia|]. split; [exact Htx|]. split; [constructor|].
        rewrite Hu3. exact HR4.
      * (* it ends in the next segment *)
        destruct (step_to all v pre cur tok v' pre' cur'
                    texts' t' (strlen (text t'))
                    (L - (strlen (text cur) - eo))
                    (L - (strlen (text cur) - eo)) (pre ++ [cur])%list
                    Hloc Hbody Hloc')
          as (Htx' & -> & -> & Ho & Hst).
        { fold c L eo. rewrite Htx, advance_cons.
          destruct (Z.ltb_spec (strlen (text cur) - eo) L); [|lia].
          apply advance_stay. left. lia. }
        { rewrite Hs, Htx, <- app_assoc. reflexivity. }
        rewrite Htx', Ho. split.
        -- left. exists c3, u3.
           split; [exact Hu3|]. split; [lia|exact HR4].
        -- rewrite sum_len_app. unfold sum_len at 2. simpl.
           fold c L in Hst. lia.
  - (* the cursor waits at the end of its segment, the text goes on at [t] *)
    rewrite Htx in Htexts. apply Forall_app in Htexts.
    destruct Htexts as [_ Htexts].
    pose proof (Forall_inv Htexts) as Ht. cbv beta in Ht.
    pose proof (Forall_inv_tail Htexts) as Hafter.
    pose proof (sum_len_empties _ Hemp) as Hsum0.
    assert (Hav : strlen (text cur) - eo = 0) by lia.
    assert (Hall1 : all = ((pre ++ cur :: empties) ++ t :: after)%list).
    { rewrite Hs, Htx, <- app_assoc. reflexivity. }
    assert (Hsum1 : sum_len (pre ++ cur :: empties)
                    = sum_len pre + strlen (text cur)).
    { rewrite sum_len_app.
      change (sum_len (cur :: empties))
        with (strlen (text cur) + sum_len empties). lia. }
    destruct (prefix_cases c R' (text t) (seps after) HR Ht (seps_shape _))
      as [(u2 & Hu2 & HR2)|(c3 & T' & HT & Hc & HR3)].
    + (* the token ends inside [t] *)
      assert (Hc0 : count_char LF c = 0).
      { rewrite Hu2, count_char_append in Ht.
        pose proof (count_char_bounds LF u2). lia. }
      assert (Htlen : strlen (text t) = strlen c + strlen u2)
        by (rewrite Hu2, strlen_append; reflexivity).
      pose proof (strlen_nonneg u2). pose proof (strlen_nonneg c).
      destruct (Z.eq_dec (strlen c) 0) as [Hz|Hnz].
      * (* an empty token: nothing moves *)
        pose proof (strlen_zero _ Hz) as Hcz.
        destruct (step_to all v pre cur tok v' pre' cur'
                    (v_texts v) cur (strlen (text cur) - eo) L (eo + L) pre
                    Hloc Hbody Hloc')
          as (Htx' & -> & -> & Ho & Hst).
        { apply advance_stay. left. fold c L eo. lia. }
        { exact Hs. }
        rewrite Htx', Ho. split; [|fold c L in Hst; lia].
        right. exists empties, t, after.
        split; [lia|]. split; [exact Htx|]. split; [exact Hemp|].
        rewrite Hu2, Hcz. exact HR2.
      * destruct (step_to all v pre cur tok v' pre' cur'
                    after t (strlen (text t)) L L (pre ++ cur :: empties)%list
                    Hloc Hbody Hloc')
          as (Htx' & -> & -> & Ho & Hst).
        { fold c L eo. rewrite Htx, Hav.
          rewrite advance_empties by (auto; lia).
          apply advance_stay. left. lia. }
        { exact Hall1. }
        rewrite Htx', Ho. split.
        -- left. exists c, u2.
           split; [exact Hu2|]. split; [lia|exact HR2].
        -- rewrite Hsum1. fold c L in Hst. lia.
    + (* the token holds all of [t] and the separator after it *)
      destruct (seps_nl _ _ HT) as (t2 & after' & Hafter' & HT').
      rewrite HT' in HR3. clear HT'. rewrite Hafter' in Hafter.
      pose proof (Forall_inv Hafter) as Ht2. cbv beta in Ht2.
      assert (Hc3 : count_char LF c3 = 0).
      { rewrite Hc, !count_char_append, count_nl in Hone.
        pose proof (count_char_bounds LF c3). lia. }
      destruct (prefix_cases c3 R' (text t2) (seps after') HR3 Ht2
                  (seps_shape _))
        as [(u3 & Hu3 & HR4)|(c4 & T4 & _ & Hc4 & _)].
      2:{ rewrite Hc4, !count_char_append, count_nl in Hc3.
          pose proof (count_char_bounds LF c4). lia. }
      assert (HLval : L = strlen (text t) + strlen c3).
      { rewrite HL, Hc, !strlen_append, !count_char_append,
          count_nl, strlen_nl. lia. }
      assert (Ht2len : strlen (text t2) = strlen c3 + strlen u3)
        by (rewrite Hu3, strlen_append; reflexivity).
      pose proof (strlen_nonneg u3). pose proof (strlen_nonneg c3).
      pose proof (strlen_nonneg (text t)).
      destruct (Z.eq_dec L 0) as [HL0|HLpos].
      * (* [t] is empty and the token is its separator *)
        assert (Htz : text t = "") by (apply strlen_zero; lia).
        assert (Hc3z : c3 = "") by (apply strlen_zero; lia).
        destruct (step_to all v pre cur tok v' pre' cur'
                    (v_texts v) cur (strlen (text cur) - eo) L (eo + L) pre
                    Hloc Hbody Hloc')
          as (Htx' & -> & -> & Ho & Hst).
        { apply advance_stay. left. fold c L eo. lia. }
        { exact Hs. }
        rewrite Htx', Ho. split; [|fold c L in Hst; lia].
        right. exists (empties ++ [t])%list, t2, after'.
        split; [lia|].
        split; [rewrite Htx, Hafter', <- app_assoc; reflexivity|].
        split; [apply Forall_app; split; [exact Hemp|repeat constructor; exact Htz]|].
        rewrite Hu3, Hc3z. exact HR4.
      * destruct (Z.eq_dec (strlen c3) 0) as [Hz|Hnz].
        -- (* the token ends with the separator after [t] *)
           pose proof (strlen_zero _ Hz) as Hc3z.
           destruct (step_to all v pre cur tok v' pre' cur'
                       after t (strlen (text t)) L L
                       (pre ++ cur :: empties)%list
                       Hloc Hbody Hloc')
             as (Htx' & -> & -> & Ho & Hst).
           { fold c L eo. rewrite Htx, Hav.
             rewrite advance_empties by (auto; lia).
             apply advance_stay. left. lia. }
           { exact Hall1. }
           rewrite Htx', Ho. split.
           ++ right. exists [], t2, after'.
              split; [lia|]. split; [exact Hafter'|]. split; [constructor|].
              rewrite Hu3, Hc3z. exact HR4.
           ++ rewrite Hsum1. fold c L in Hst. lia.
        -- (* the token ends in the segment after [t] *)
           destruct (step_to all v pre cur tok v' pre' cur'
                       after' t2 (strlen (text t2))
                       (L - strlen (text t)) (L - strlen (text t))
                       ((pre ++ cur :: empties) ++ [t])%list
                       Hloc Hbody Hloc')
             as (Htx' & -> & -> & Ho & Hst).
           { fold c L eo. rewrite Htx, Hav.
             rewrite advance_empties by (auto; lia).
             rewrite Hafter', advance_cons.
             destruct (Z.ltb_spec (strlen (text t)) L); [|lia].
             apply advance_stay. left. lia. }
           { rewrite Hall1, Hafter'.
             rewrite <- (app_assoc (pre ++ cur :: empties) [t] (t2 :: after')).
             reflexivity. }
           rewrite Htx', Ho. split.
           ++ left. exists c3, u3.
              split; [exact Hu3|]. split; [lia|exact HR4].
           ++ rewrite sum_len_app, Hsum1. unfold sum_len at 2. simpl.
              fold c L in Hst. lia.
Qed.

(** X10.  For segments with distinct keys and no line feed in their
    texts, and a matching token stream in which no token holds more than
    one line feed, every range sits exactly where its token does (anchor
    at the value of [start], focus at the value of [end], as character
    offsets in the code block) and has both offsets inside the text of
    their segments. *)
Theorem one_line_feed_tokens_exact
    (texts : list Text) (tokens : list token) :
  texts <> [] ->
  NoDup (map key texts) ->
  line_feed_free texts ->
  matching texts tokens ->
  one_line_feed_each tokens ->
  exists ds,
    decorate texts tokens = Ok ds /\
    forallb (in_bounds texts) ds = true /\
    map (fun r => (abs_anchor texts r, abs_focus texts r)) ds
    = map (fun span => (Some (fst span), Some (snd span)))
          (length_spans 0 tokens).
Proof.
  intros Hne Hnd Hfree Hmatch Hone.
  destruct texts as [|t rest]; [contradiction|].
  destruct (decorate_aligned t rest tokens
              (fun s p =>
                 s = abs_offset (t :: rest) p /\
                 0 <= snd p
                 <= strlen (text (nth (fst p) (t :: rest) (mkText "" ""))))
              (fun toks v pre cur =>
                 one_line_feed_each toks /\
                 remaining_text (v_texts v) cur (v_endOffset v)
                                (concat_strings (map getContent toks)) /\
                 v_start v = sum_len pre + v_endOffset v))
    as (ds & Hdec & Hal).
  { intros toks v pre cur Hloc (_ & Hrem & Hexact). cbn [fst snd].
    split; [rewrite (abs_offset_located _ _ _ _ Hloc); exact Hexact|].
    rewrite (loc_split _ _ _ _ Hloc) at 1. rewrite nth_middle_text.
    destruct Hrem as [(done & u & Htext & Hdone & _)
                     |(empties & t' & after & Heo & _)].
    - rewrite Htext, strlen_append.
      pose proof (strlen_nonneg done). pose proof (strlen_nonneg u). lia.
    - pose proof (strlen_nonneg (text cur)). lia. }
  { intros tok toks v pre cur v' pre' cur' Hloc (Hall & Hrem & Hexact)
           Hbody Hloc'.
    split; [exact (Forall_inv_tail Hall)|].
    apply (for_body_one_line (t :: rest) v pre cur tok
             (concat_strings (map getContent toks)) v' pre' cur');
      auto.
    exact (Forall_inv Hall). }
  { split; [exact Hone|]. split; [|reflexivity].
    left. exists "", (text t). simpl.
    split; [reflexivity|]. split; [reflexivity|].
    rewrite Hmatch. apply joined_seps. }
  exists ds. split; [exact Hdec|].
  pose proof (aligned_spans _ _ _ _ _ Hnd Hal) as HF.
  clear Hdec Hal.
  induction HF as [|r span ds spans (i & j & Hi & Hj & Ha & Hf) _ IH];
    [split; reflexivity|].
  destruct IH as [IH1 IH2].
  cbn [fst snd] in Ha, Hf.
  destruct Ha as [Ha0 [Ha1 Ha2]], Hf as [Hf0 [Hf1 Hf2]].
  split.
  - cbn [forallb]. rewrite IH1, andb_true_r. unfold in_bounds.
    rewrite Hi, Hj. cbv iota beta.
    apply Z.leb_le in Ha1, Ha2, Hf1, Hf2.
    rewrite Ha1, Ha2, Hf1, Hf2. reflexivity.
  - cbn [map]. rewrite IH2. unfold abs_anchor, abs_focus.
    rewrite Hi, Hj. cbn [option_map]. rewrite <- Ha0, <- Hf0. reflexivity.
Qed.

Lemma one_line_feed_tokens_exact_witness :
  exists ds,
    decorate three_lines three_lines_tokens = Ok ds /\
    forallb (in_bounds three_lines) ds = true /\
    map (fun r => (abs_anchor three_lines r, abs_focus three_lines r)) ds
    = map (fun span => (Some (fst span), Some (snd span)))
          (length_spans 0 three_lines_tokens).
Proof.
  apply (one_line_feed_tokens_exact three_lines three_lines_tokens).
  - discriminate.
  - repeat constructor; simpl; intuition discriminate.
  - repeat constructor.
  - reflexivity.
  - repeat constructor; vm_compute; discriminate.
Defined.

(** ** Ranges next to one another *)

Lemma chain_consecutive all p ds q :
  chain all p ds q ->
  forall m r1 r2,
    nth_error ds m = Some r1 -> nth_error ds (S m) = Some r2 ->
    exists j i,
      at_index all j (focusKey r1) /\ at_index all i (anchorKey r2) /\
      pos_le (j, focusOffset r1) (i, anchorOffset r2).
Proof.
  induction 1 as [p q H|p i j r ds q Hi Hj H1 H2 Hch IH];
    intros m r1 r2 Hm Hn.
  - destruct m; discriminate.
  - destruct m as [|m]; simpl in Hm, Hn.
    + injection Hm as <-. destruct ds as [|r' ds']; [discriminate|].
      simpl in Hn. injection Hn as <-.
      inversion Hch as [|p' i' j' r0 ds0 q' Hi' Hj' H1' H2' Hch']; subst.
      exists j, i'. auto.
    + apply (IH m); assumption.
Qed.

(** X11.  For a segment list of length at least one with distinct keys and
    any token stream, the emitted ranges do not overlap: each range is
    anchored at or after the focus of the range emitted before it. *)
Theorem ranges_do_not_overlap (texts : list Text) (tokens : list token) :
  texts <> [] ->
  NoDup (map key texts) ->
  exists ds,
    decorate texts tokens = Ok ds /\
    forall m r1 r2,
      nth_error ds m = Some r1 -> nth_error ds (S m) = Some r2 ->
      exists p1 p2,
        focus_pos texts r1 = Some p1 /\ anchor_pos texts r2 = Some p2 /\
        pos_le p1 p2.
Proof.
  intros Hne Hnd. destruct texts as [|t rest]; [contradiction|].
  destruct (decorate_vars_run t rest tokens)
    as (v & pre & cur & Hrun & _ & _ & Hch & _).
  exists (v_decorations v). split; [exact (decorate_of_vars _ _ _ Hrun)|].
  intros m r1 r2 Hm Hn.
  destruct (chain_consecutive _ _ _ _ Hch m r1 r2 Hm Hn)
    as (j & i & Hj & Hi & Hle).
  exists (j, focusOffset r1), (i, anchorOffset r2).
  unfold focus_pos, anchor_pos.
  rewrite (key_index_at _ Hnd _ _ Hj), (key_index_at _ Hnd _ _ Hi). auto.
Qed.

Lemma ranges_do_not_overlap_witness :
  exists ds,
    decorate three_lines three_lines_tokens = Ok ds /\
    forall m r1 r2,
      nth_error ds m = Some r1 -> nth_error ds (S m) = Some r2 ->
      exists p1 p2,
        focus_pos three_lines r1 = Some p1 /\
        anchor_pos three_lines r2 = Some p2 /\
        pos_le p1 p2.
Proof.
  apply (ranges_do_not_overlap three_lines three_lines_tokens).
  - discriminate.
  - repeat constructor; simpl; intuition discriminate.
Defined.

(** X12.  Two structured tokens that follow one another in a stream get
    ranges that abut: the second is anchored at the very point, segment
    key and offset, where the first has its focus. *)
Theorem adjacent_ranges_abut
    (texts : list Text) (toks : list token)
    (type1 : string) (c1 : tcontent) (type2 : string) (c2 : tcontent)
    (toks' : list token) :
  texts <> [] ->
  exists ds r1 r2 ds',
    decorate texts toks = Ok ds /\
    decorate texts
      (toks ++ TToken type1 c1 :: TToken type2 c2 :: toks')%list
    = Ok (ds ++ r1 :: r2 :: ds')%list /\
    marks r1 = [mkMark type1] /\ marks r2 = [mkMark type2] /\
    anchorKey r2 = focusKey r1 /\ anchorOffset r2 = focusOffset r1.
Proof.
  intros Hne. destruct texts as [|t rest]; [contradiction|].
  destruct (decorate_vars_run t rest toks)
    as (v1 & pre1 & cur1 & Hrun1 & Hloc1 & _).
  destruct (for_body_step _ _ _ _ (TToken type1 c1) Hloc1)
    as (v2 & pre2 & cur2 & Hbody2 & Hloc2 & _ & _ & Hdec2).
  destruct (for_body_step _ _ _ _ (TToken type2 c2) Hloc2)
    as (v3 & pre3 & cur3 & Hbody3 & Hloc3 & _ & _ & Hdec3).
  destruct (for_of_run (t :: rest) toks' v3 pre3 cur3 Hloc3)
    as (v4 & pre4 & cur4 & ds' & Hrun4 & _ & _ & Hdec4 & _).
  exists (v_decorations v1),
         (mkRange (key cur1) (v_endOffset v1) (key cur2) (v_endOffset v2)
                  [mkMark type1]),
         (mkRange (key cur2) (v_endOffset v2) (key cur3) (v_endOffset v3)
                  [mkMark type2]), ds'.
  split; [exact (decorate_of_vars _ _ _ Hrun1)|].
  split; [|repeat split].
  replace (v_decorations v1 ++ _ :: _ :: ds')%list with (v_decorations v4).
  - apply decorate_of_vars. unfold decorate_vars in *.
    rewrite for_of_append, Hrun1. cbn [bind for_of].
    rewrite Hbody2. cbn [bind]. rewrite Hbody3. exact Hrun4.
  - rewrite Hdec4, Hdec3, Hdec2. cbn [emitted].
    rewrite <- !app_assoc. reflexivity.
Qed.

Lemma adjacent_ranges_abut_witness :
  exists ds r1 r2 ds',
    decorate comment_lines [] = Ok ds /\
    decorate comment_lines
      ([] ++ TToken "comment" (CString ("/*" ++ nl ++ "x" ++ nl))
          :: TToken "operator" (CString "*/") :: [])%list
    = Ok (ds ++ r1 :: r2 :: ds')%list /\
    marks r1 = [mkMark "comment"] /\ marks r2 = [mkMark "operator"] /\
    anchorKey r2 = focusKey r1 /\ anchorOffset r2 = focusOffset r1.
Proof.
  apply (adjacent_ranges_abut comment_lines []
           "comment" (CString ("/*" ++ nl ++ "x" ++ nl))
           "operator" (CString "*/") []).
  discriminate.
Defined.

(** ** Plain tokens of length zero *)

Lemma for_body_same_cursor tok v v2 :
  same_cursor v v2 -> for_body tok v = for_body tok v2.
Proof.
  intros (H1 & H2 & H3 & H4 & H5). unfold for_body.
  rewrite H1, H2, H3, H4, H5. reflexivity.
Qed.

Lemma for_of_same_cursor tokens v v2 :
  same_cursor v v2 ->
  bind (for_of tokens v) (fun x => Ok (v_decorations x))
  = bind (for_of tokens v2) (fun x => Ok (v_decorations x)).
Proof.
  intros H. destruct tokens as [|tok tokens]; cbn [for_of].
  - simpl. destruct H as (_ & _ & _ & _ & ->). reflexivity.
  - rewrite (for_body_same_cursor tok v v2 H). reflexivity.
Qed.

(** X13.  A plain token of length zero, the empty string or line feeds
    only, changes nothing: with a segment list of length at least one,
    the ranges are the same with the token in the stream and without. *)
Theorem empty_plain_token_ignored
    (texts : list Text) (toks : list token) (s : string)
    (toks' : list token) :
  texts <> [] ->
  token_length s = 0 ->
  decorate texts (toks ++ TString s :: toks')%list
  = decorate texts (toks ++ toks')%list.
Proof.
  intros Hne Hzero. destruct texts as [|t rest]; [contradiction|].
  destruct (decorate_vars_run t rest toks)
    as (v1 & pre1 & cur1 & Hrun1 & Hloc1 & _).
  unfold decorate, decorate_vars in *.
  rewrite !for_of_append, Hrun1. cbn [bind for_of].
  destruct (for_body_step _ _ _ _ (TString s) Hloc1)
    as (v2 & pre2 & cur2 & Hbody & Hloc2 & Hstart & _ & Hdec).
  rewrite Hbody. cbn [bind].
  apply for_of_same_cursor.
  destruct (for_body_move _ _ _ _ _ _ _ _ Hloc1 Hbody Hloc2)
    as [(_ & -> & Ho)|[_ Hpos]]; [|simpl in Hpos; lia].
  simpl getContent in *. rewrite Hzero in *.
  assert (Htexts : v_texts v2 = v_texts v1).
  { pose proof (loc_split _ _ _ _ Hloc1) as Hs1.
    pose proof (loc_split _ _ _ _ Hloc2) as Hs2.
    destruct (for_body_move _ _ _ _ _ _ _ _ Hloc1 Hbody Hloc2)
      as [(-> & _ & _)|[_ Hpos]]; [|simpl in Hpos; lia].
    rewrite Hs1 in Hs2. apply app_inv_head in Hs2.
    injection Hs2 as Hs2. symmetry. exact Hs2. }
  unfold same_cursor.
  rewrite Htexts, (loc_end _ _ _ _ Hloc1), (loc_end _ _ _ _ Hloc2), Hdec.
  cbn [emitted]. rewrite app_nil_r.
  repeat split; lia.
Qed.

Lemma empty_plain_token_ignored_witness :
  decorate [seg "0" "ab"; seg "1" "cd"]
           ([TToken "a" (CString "ab")] ++ TString nl
              :: [TToken "b" (CString "cd")])%list
  = decorate [seg "0" "ab"; seg "1" "cd"]
             ([TToken "a" (CString "ab")] ++ [TToken "b" (CString "cd")])%list.
Proof.
  apply (empty_plain_token_ignored [seg "0" "ab"; seg "1" "cd"]
           [TToken "a" (CString "ab")] nl [TToken "b" (CString "cd")]).
  - discriminate.
  - reflexivity.
Defined.

(** ** A token over two boundaries *)

(** X14.  In a code block of three segments, a structured token that
    starts at offset [so] of the first segment and is longer than the
    rest of the first segment and the second together gets its focus in
    the third segment at the offset [length] minus the length of the
    second segment: the characters it has in the first segment are not
    taken off, so the focus lies that many characters after the token's
    end, and at the token's end only if the token starts at the end of
    the first segment. *)
Theorem two_boundaries_overshoot
    (t0 t1 t2 : Text) (s : string) (type : string) (c : tcontent) :
  let so := token_length s in
  let length := token_length (getContent (TToken type c)) in
  so <= strlen (text t0) ->
  (strlen (text t0) - so) + strlen (text t1) < length ->
  decorate [t0; t1; t2] [TString s; TToken type c]
  = Ok [mkRange (key t0) so (key t2) (length - strlen (text t1))
                [mkMark type]]
  /\ abs_offset [t0; t1; t2] (2%nat, length - strlen (text t1))
     = (so + length) + (strlen (text t0) - so).
Proof.
  intros so length Hso Hlong.
  pose proof (token_length_nonneg s) as Hs0. fold so in Hs0.
  pose proof (strlen_nonneg (text t1)) as H1.
  split.
  - assert (Hfirst :
      for_body (TString s) (init_vars [t0; t1; t2])
      = Ok (mkVars [t1; t2] (Some t0) (Some t0) 0 so so [])).
    { unfold for_body, init_vars.
      cbn [shift v_endText v_texts v_endOffset v_decorations v_start].
      change (getContent (TString s)) with s. fold so.
      rewrite advance_stay by (left; lia). reflexivity. }
    assert (Hsecond :
      for_body (TToken type c)
               (mkVars [t1; t2] (Some t0) (Some t0) 0 so so [])
      = Ok (mkVars [] (Some t0) (Some t2) so
                   (length - strlen (text t1)) (so + length)
                   [mkRange (key t0) so (key t2)
                            (length - strlen (text t1)) [mkMark type]])).
    { unfold for_body.
      cbn [v_endText v_texts v_endOffset v_decorations v_start].
      fold length.
      rewrite advance_cons.
      destruct (Z.ltb_spec (strlen (text t0) - so) length); [|lia].
      rewrite advance_cons.
      destruct (Z.ltb_spec (strlen (text t1))
                  (length - (strlen (text t0) - so))); [|lia].
      rewrite advance_stay by (right; reflexivity).
      reflexivity. }
    unfold decorate, decorate_vars. cbn [for_of].
    rewrite Hfirst. cbn [bind]. rewrite Hsecond. reflexivity.
  - unfold abs_offset, sum_len. simpl. lia.
Qed.

Lemma two_boundaries_overshoot_witness :
  decorate [seg "0" "a/*"; seg "1" "x"; seg "2" "*/bcd"]
           [TString "a";
            TToken "comment" (CString ("/*" ++ nl ++ "x" ++ nl ++ "*/"))]
  = Ok [mkRange "0" 1 "2" 4 [mkMark "comment"]]
  /\ abs_offset [seg "0" "a/*"; seg "1" "x"; seg "2" "*/bcd"] (2%nat, 4)
     = (1 + 5) + (3 - 1).
Proof.
  apply (two_boundaries_overshoot
           (seg "0" "a/*") (seg "1" "x") (seg "2" "*/bcd") "a"
           "comment" (CString ("/*" ++ nl ++ "x" ++ nl ++ "*/"))).
  - vm_compute. discriminate.
  - vm_compute. reflexivity.
Defined.

(** ** The content of a token *)

(** X21.  [getContent] returns a plain string token itself and a string
    content as it is; for an array content it returns the contents of
    the nested tokens one after the other with nothing in between; so,
    whatever the depth of nesting, it returns the leaf strings of the
    token concatenated from left to right. *)
Theorem getContent_concatenates_leaves :
  (forall s, getContent (TString s) = s) /\
  (forall type s, getContent (TToken type (CString s)) = s) /\
  (forall type ts,
      getContent (TToken type (CArray ts))
      = concat_strings (map getContent ts)) /\
  (forall t, getContent t = concat_strings (leaves t)).
Proof.
  split; [reflexivity|]. split; [reflexivity|].
  split; [intros; simpl; apply join_empty|].
  exact getContent_leaves.
Qed.

(** * Properties of the handlers *)

(** ** Images *)

(** X15.  [isImage] never answers true: with an empty extension list it
    answers false, and with any other it raises the [TypeError] of
    [endsWith] called without a receiver, whatever the URL. *)
Theorem isImage_never_true (imageExtensions : list string) (url : string) :
  isImage imageExtensions url
  = match imageExtensions with
    | [] => Ok false
    | _ :: _ =>
        Throw (TypeError
                 "String.prototype.endsWith called on null or undefined")
    end
  /\ isImage imageExtensions url <> Ok true.
Proof. destruct imageExtensions; split; try reflexivity; discriminate. Qed.

(** X16.  [onDropOrPaste] itself never calls the change: whenever it
    returns, no image has been inserted and nothing selected, also for a
    dropped or pasted URL of an image.  It raises exactly when the
    transfer is a text that [isUrl] accepts, the extension list is not
    empty, and the event is not a drop without target. *)
Theorem onDropOrPaste_never_inserts
    (imageExtensions : list string) (isUrl : string -> bool)
    (event_type : string) (target : option Range) (transfer : Transfer) :
  (forall d,
      onDropOrPaste imageExtensions isUrl event_type target transfer = Ok d ->
      drop_commands d = []) /\
  ((exists e,
       onDropOrPaste imageExtensions isUrl event_type target transfer
       = Throw e) <->
   (imageExtensions <> [] /\
    transfer_type transfer = "text" /\
    isUrl (transfer_text transfer) = true /\
    ~ (target = None /\ event_type = "drop"))).
Proof.
  unfold onDropOrPaste.
  destruct (String.eqb_spec event_type "drop") as [Hdrop|Hdrop];
    destruct target as [t|];
    destruct (String.eqb_spec (transfer_type transfer) "text") as [Htext|Htext];
    destruct (isUrl (transfer_text transfer)) eqn:Hurl;
    destruct imageExtensions as [|ext exts];
    cbn [andb negb isImage find bind endsWith truthy];
    (split;
     [intros d H; try discriminate; injection H as <-; reflexivity
     |split;
      [intros [e H]; try discriminate;
       repeat split; try assumption; try discriminate;
       intros [Ht Hd]; congruence
      |intros (Hne & Hty & Hu & Hnot); try congruence;
       try (exfalso; apply Hnot; split; [reflexivity|assumption]);
       eexists; reflexivity]]).
Qed.

Lemma split_first sep p rest :
  count_char sep p = 0 ->
  split sep p = [p] /\
  split sep (p ++ String sep rest) = p :: split sep rest.
Proof.
  induction p as [|a p IH]; intros Hp.
  - split; [reflexivity|]. simpl. rewrite Ascii.eqb_refl. reflexivity.
  - simpl in Hp. pose proof (count_char_bounds sep p).
    simpl. destruct (Ascii.eqb a sep); [lia|].
    destruct (IH ltac:(lia)) as [-> ->]. auto.
Qed.

Lemma split_head sep s :
  exists p pieces,
    split sep s = p :: pieces /\
    count_char sep p = 0 /\
    (s = p \/ exists rest, s = p ++ String sep rest).
Proof.
  induction s as [|a s (p & pieces & Hsplit & Hp & Hs)].
  - exists "", []. auto.
  - simpl. destruct (Ascii.eqb_spec a sep) as [->|Hne].
    + exists "", (split sep s). split; [reflexivity|].
      split; [reflexivity|]. right. exists s. reflexivity.
    + rewrite Hsplit. exists (String a p), pieces.
      split; [reflexivity|]. split.
      * simpl. apply Ascii.eqb_neq in Hne. rewrite Hne. exact Hp.
      * destruct Hs as [->|[rest ->]]; [left; reflexivity|].
        right. exists rest. reflexivity.
Qed.

Lemma mime_image file :
  mime file = Some "image" <->
  (file_type file = "image"
   \/ exists rest, file_type file = "image/" ++ rest).
Proof.
  unfold mime. split.
  - destruct (split_head "/" (file_type file))
      as (p & pieces & -> & _ & Hs).
    intros H. injection H as ->.
    destruct Hs as [Hs|[rest Hs]]; [left; exact Hs|].
    right. exists rest. exact Hs.
  - intros [H|[rest H]]; rewrite H.
    + reflexivity.
    + change ("image/" ++ rest) with ("image" ++ String "/" rest).
      destruct (split_first "/" "image" rest eq_refl) as [_ ->].
      reflexivity.
Qed.

(** X17.  Of the files of a transfer, [onDropOrPaste] hands to a reader
    exactly those whose type is [image] or begins with [image/], in the
    order of the transfer, and none when the transfer is not of type
    [files] or the event is a drop without target. *)
Theorem onDropOrPaste_reads_images
    (imageExtensions : list string) (isUrl : string -> bool)
    (event_type : string) (target : option Range) (transfer : Transfer)
    (d : dropped) :
  onDropOrPaste imageExtensions isUrl event_type target transfer = Ok d ->
  (exists keep,
      drop_reads d = filter keep (transfer_files transfer)) /\
  (forall file,
      In file (drop_reads d) <->
      (In file (transfer_files transfer) /\
       transfer_type transfer = "files" /\
       ~ (target = None /\ event_type = "drop") /\
       (file_type file = "image"
        \/ exists rest, file_type file = "image/" ++ rest))).
Proof.
  set (image := fun file => match mime file with
                            | Some m => String.eqb m "image"
                            | None => false
                            end).
  assert (Himage : forall file,
             image file = true <->
             (file_type file = "image"
              \/ exists rest, file_type file = "image/" ++ rest)).
  { intros file. rewrite <- mime_image. unfold image.
    destruct (mime file) as [m|]; [|split; discriminate].
    rewrite String.eqb_eq. split; congruence. }
  unfold onDropOrPaste. fold image.
  destruct (String.eqb_spec event_type "drop") as [Hdrop|Hdrop];
    destruct target as [t|]; cbn [andb];
    try (intros H; injection H as <-; cbn [drop_reads];
         split; [exists (fun _ => false); induction (transfer_files transfer);
                 simpl; auto|];
         intros file; split; [intros []|intros (_ & _ & Hn & _)];
         exfalso; apply Hn; auto);
    (destruct (String.eqb_spec (transfer_type transfer) "files")
       as [Hfiles|Hfiles];
     [rewrite Hfiles; cbn [String.eqb Ascii.eqb Bool.eqb];
      intros H; injection H as <-; cbn [drop_reads];
      split; [exists image; reflexivity|];
      intros file; rewrite filter_In, Himage;
      split; [intros [Hin Him]; repeat split; auto;
              intros [Ht Hd]; congruence
             |intros (Hin & _ & _ & Him); auto]
     |intros H;
      assert (Hreads : drop_reads d = []);
      [destruct (String.eqb (transfer_type transfer) "text");
       [destruct (negb (isUrl (transfer_text transfer)));
        [injection H as <-; reflexivity|];
        destruct (isImage imageExtensions (transfer_text transfer))
          as [[|]|e]; try discriminate;
        injection H as <-; reflexivity
       |injection H as <-; reflexivity]
      |rewrite Hreads;
       split; [exists (fun _ => false);
               induction (transfer_files transfer); simpl; auto|];
       intros file; split; [intros []|intros (_ & Hf & _); contradiction]]]).
Qed.

Lemma onDropOrPaste_reads_images_witness :
  (exists keep,
      drop_reads
        (mkDropped [] [mkFile "a.png" "image/png"])
      = filter keep [mkFile "a.png" "image/png"; mkFile "b.txt" "text/plain"])
  /\
  (forall file,
      In file (drop_reads (mkDropped [] [mkFile "a.png" "image/png"])) <->
      (In file [mkFile "a.png" "image/png"; mkFile "b.txt" "text/plain"] /\
       "files" = "files" /\
       ~ (@None Range = None /\ "paste" = "drop") /\
       (file_type file = "image"
        \/ exists rest, file_type file = "image/" ++ rest))).
Proof.
  exact (onDropOrPaste_reads_images ["png"] (fun _ => false) "paste" None
           (mkTransfer "files" ""
              [mkFile "a.png" "image/png"; mkFile "b.txt" "text/plain"])
           (mkDropped [] [mkFile "a.png" "image/png"]) eq_refl).
Defined.

(** ** Keys *)

(** X18.  [onKeyDown] acts only on Enter in a code block, where it
    deletes an expanded selection and inserts a line feed.  With hotkey
    matchers that accept no event whose key is Enter, it never toggles a
    mark, never prevents the default action and always returns
    [undefined]. *)
Theorem onKeyDown_hotkeys_dead
    (Event : Type) (event_key : Event -> string)
    (isBoldHotkey isItalicHotkey isUnderlinedHotkey isCodeHotkey
       : Event -> bool)
    (event : Event) (startBlock_type : string) (isExpanded : bool) :
  (forall e, isBoldHotkey e = true -> event_key e <> "Enter") ->
  (forall e, isItalicHotkey e = true -> event_key e <> "Enter") ->
  (forall e, isUnderlinedHotkey e = true -> event_key e <> "Enter") ->
  (forall e, isCodeHotkey e = true -> event_key e <> "Enter") ->
  let k := onKeyDown Event event_key isBoldHotkey isItalicHotkey
                     isUnderlinedHotkey isCodeHotkey
                     event startBlock_type isExpanded in
  key_returned k = None /\
  key_defaultPrevented k = false /\
  (forall m, ~ In (ToggleMark m) (key_commands k)) /\
  key_commands k
  = if String.eqb (event_key event) "Enter"
       && String.eqb startBlock_type "code"
    then ((if isExpanded then [Delete] else []) ++ [InsertText nl])%list
    else [].
Proof.
  intros Hb Hi Hu Hc. unfold onKeyDown.
  destruct (String.eqb_spec (event_key event) "Enter") as [Hkey|Hkey];
    cbn [negb andb];
    [|repeat split; intros m []].
  destruct (String.eqb startBlock_type "code"); cbn [negb];
    [|repeat split; intros m []].
  destruct (isBoldHotkey event) eqn:Eb; [exfalso; exact (Hb _ Eb Hkey)|].
  destruct (isItalicHotkey event) eqn:Ei; [exfalso; exact (Hi _ Ei Hkey)|].
  destruct (isUnderlinedHotkey event) eqn:Eu;
    [exfalso; exact (Hu _ Eu Hkey)|].
  destruct (isCodeHotkey event) eqn:Ec; [exfalso; exact (Hc _ Ec Hkey)|].
  cbn [key_returned key_defaultPrevented key_commands].
  repeat split.
  intros m Hin. apply in_app_or in Hin.
  destruct Hin as [Hin|[Hin|[]]]; [|discriminate].
  destruct isExpanded; [destruct Hin as [Hin|[]]; discriminate|destruct Hin].
Qed.

Lemma mod_hotkey_not_enter k e :
  k <> "Enter" -> mod_hotkey k e = true -> fst e <> "Enter".
Proof.
  unfold mod_hotkey. intros Hk H. apply andb_prop in H.
  destruct H as [H _]. apply String.eqb_eq in H. congruence.
Qed.

Lemma onKeyDown_hotkeys_dead_witness :
  let k := onKeyDown (string * bool) fst (mod_hotkey "b") (mod_hotkey "i")
                     (mod_hotkey "u") (mod_hotkey "`")
                     ("Enter", true) "code" true in
  key_returned k = None /\
  key_defaultPrevented k = false /\
  (forall m, ~ In (ToggleMark m) (key_commands k)) /\
  key_commands k
  = if String.eqb (fst ("Enter", true)) "Enter" && String.eqb "code" "code"
    then ((if true then [Delete] else []) ++ [InsertText nl])%list
    else [].
Proof.
  apply (onKeyDown_hotkeys_dead (string * bool) fst
           (mod_hotkey "b") (mod_hotkey "i") (mod_hotkey "u")
           (mod_hotkey "`") ("Enter", true) "code" true).
  - intros e. apply mod_hotkey_not_enter. discriminate.
  - intros e. apply mod_hotkey_not_enter. discriminate.
  - intros e. apply mod_hotkey_not_enter. discriminate.
  - intros e. apply mod_hotkey_not_enter. discriminate.
Defined.

(** ** Block buttons *)

(** X19.  A block button shown active resets the blocks when clicked:
    [onClickBlock] first sets the selected blocks to the default type, and
    for a list button it then unwraps both kinds of list and does nothing
    else. *)
Theorem active_button_resets (blocks : list Block) (type : string) :
  renderBlockButton_isActive blocks type = Ok true ->
  exists rest,
    onClickBlock blocks type = SetBlocks DEFAULT_NODE :: rest /\
    (is_list_type type = true ->
     rest = [UnwrapBlock "bulleted-list"; UnwrapBlock "numbered-list"]).
Proof.
  unfold renderBlockButton_isActive, onClickBlock.
  destruct (is_list_type type) eqn:Hlist; cbn [negb].
  - destruct blocks as [|first blocks]; [discriminate|].
    destruct (hasBlock (first :: blocks) "list-item") eqn:Hitem;
      cbn [andb]; [|discriminate].
    intros H. injection H as Hparent.
    assert (Hclosest : hasClosest first type = true).
    { unfold hasClosest, getParent in *.
      destruct (block_ancestors first) as [|parent rest];
        [discriminate|].
      simpl. rewrite Hparent. reflexivity. }
    cbn [existsb]. rewrite Hclosest. cbn [orb].
    eexists. split; [reflexivity|]. reflexivity.
  - intros H. injection H as H. rewrite H.
    destruct (hasBlock blocks "list-item");
      eexists; (split; [reflexivity|discriminate]).
Qed.

Lemma active_button_resets_witness :
  exists rest,
    onClickBlock [mkBlock "7" "list-item" ["numbered-list"; "block-quote"]]
                 "numbered-list"
    = SetBlocks DEFAULT_NODE :: rest /\
    (is_list_type "numbered-list" = true ->
     rest = [UnwrapBlock "bulleted-list"; UnwrapBlock "numbered-list"]).
Proof.
  apply (active_button_resets
           [mkBlock "7" "list-item" ["numbered-list"; "block-quote"]]
           "numbered-list").
  reflexivity.
Defined.

(** X20.  Whatever is selected and whichever button is clicked,
    [onClickBlock] sets blocks to a type that is not a list, wraps only in
    the clicked list type, unwraps only lists, and makes no other call. *)
Theorem onClickBlock_keeps_lists_apart
    (blocks : list Block) (type : string) (cmd : command) :
  In cmd (onClickBlock blocks type) ->
  match cmd with
  | SetBlocks t => is_list_type t = false
  | WrapBlock t => t = type /\ is_list_type t = true
  | UnwrapBlock t => is_list_type t = true
  | _ => False
  end.
Proof.
  unfold onClickBlock.
  destruct (is_list_type type) eqn:Hlist; cbn [negb].
  - destruct (hasBlock blocks "list-item"); cbn [andb].
    + destruct (existsb (fun block => hasClosest block type) blocks).
      * intros [<-|[<-|[<-|[]]]]; reflexivity.
      * intros [<-|[<-|[]]]; [|auto].
        destruct (String.eqb type "bulleted-list"); reflexivity.
    + intros [<-|[<-|[]]]; [reflexivity|auto].
  - destruct (hasBlock blocks "list-item");
      destruct (hasBlock blocks type);
      intros H; simpl in H; intuition (subst; auto).
Qed.

Lemma onClickBlock_keeps_lists_apart_witness :
  "bulleted-list" = "bulleted-list" /\ is_list_type "bulleted-list" = true.
Proof.
  apply (onClickBlock_keeps_lists_apart
           [mkBlock "7" "paragraph" []] "bulleted-list"
           (WrapBlock "bulleted-list")).
  simpl. auto.
Defined.
